(** * weave-npc: bootstrap, base rules and watch dispatch of [prog/weave-npc/main.go]

    A shallow embedding of the Go program.  The packet-filter and
    named-set backends are command-line tools reached through two
    handles ([ipt] and [ips]); they are modelled as an in-memory
    kernel state together with a log of every command issued, and a
    fault oracle per handle so that any command may fail at any point. *)

From Stdlib Require Import String Ascii List Bool.
From stdpp Require Import gmap strings list.
Import ListNotations.

Local Open Scope string_scope.
Local Open Scope list_scope.

(** ** Errors *)

(** An argument of a [Wrapf] format string: [%q] of a string, or [%s] of
    a slice of strings. *)
Inductive fmtArg : Type :=
| FStr (s : string)
| FStrs (l : list string).

(** Go's [error] values: the error of a failed backend command, or an
    error wrapped by [errors.Wrapf] with its format and arguments. *)
Inductive error : Type :=
| CmdError (msg : string)
| Wrapf (cause : error) (format : string) (args : list fmtArg).

(** Ways in which the process stops: a run-time panic, or
    [common.CheckFatal] on a non-nil error. *)
Inductive crash : Type :=
| Panicked (msg : string)
| Fatal (e : error).

Inductive Result (A : Type) : Type :=
| Ok (a : A)
| Err (e : error)
| Crash (c : crash).
Arguments Ok {A} a.
Arguments Err {A} e.
Arguments Crash {A} c.

(** ** Backend state *)

(** [ipset.Type]. *)
Inductive ipsetType : Type := HashIP | ListSet.

(** A rule is the token list handed to [ipt.Append]. *)
Definition rulespec : Type := list string.

(** Commands sent to the two backends. *)
Inductive Call : Type :=
| CallClearChain (table chain : string)
| CallNewChain (table chain : string)
| CallAppend (table chain : string) (r : rulespec)
| CallList (table chain : string)
| CallIpsList (prefix : string)
| CallIpsFlush (name : string)
| CallIpsDestroy (name : string)
| CallIpsCreate (name : string) (typ : ipsetType).

(** The kernel state seen through the backends, and the log of every
    command issued with its outcome ([None] for success). *)
Record World : Type := mkWorld {
  chains : gmap (string * string) (list rulespec);
  ipsets : list (string * (ipsetType * list string));
  log : list (Call * option error)
}.

(** The [*iptables.IPTables] handle.  Two things are the backend's own
    and are left open: when a command fails ([iptFault], which may look
    at the whole state and history), and how [List] prints a rule of a
    chain ([iptLine chain r]). *)
Record IPTables : Type := mkIPTables {
  iptFault : World -> Call -> option error;
  iptLine : string -> rulespec -> string
}.

(** The [ipset.Interface] handle. *)
Record IPSet : Type := mkIPSet {
  ipsFault : World -> Call -> option error
}.

(** ** The monad of backend programs *)

Definition M (A : Type) : Type := World -> Result A * World.

Definition ret {A} (a : A) : M A := fun w => (Ok a, w).

(** Sequencing with Go's [if err != nil { return err }]. *)
Definition bind {A B} (m : M A) (k : A -> M B) : M B :=
  fun w =>
    match m w with
    | (Ok a, w') => k a w'
    | (Err e, w') => (Err e, w')
    | (Crash c, w') => (Crash c, w')
    end.

Notation "x <- c1 ;; c2" := (bind c1 (fun x => c2))
  (at level 100, c1 at next level, right associativity).
Notation "c1 ;; c2" := (bind c1 (fun _ => c2))
  (at level 100, right associativity).

(** [_ = f()]: the error of [m] is dropped. *)
Definition ignoreErr (m : M unit) : M unit :=
  fun w =>
    match m w with
    | (Err _, w') => (Ok tt, w')
    | r => r
    end.

(** [if err != nil { return wrap(err) }]. *)
Definition wrapErr {A} (m : M A) (wrap : error -> error) : M A :=
  fun w =>
    match m w with
    | (Err e, w') => (Err (wrap e), w')
    | r => r
    end.

(** [handleError(err)]: [common.CheckFatal] ends the process on an error. *)
Definition handleError (m : M unit) : M unit :=
  fun w =>
    match m w with
    | (Err e, w') => (Crash (Fatal e), w')
    | r => r
    end.

(** [for _, x := range xs { if err := body(x); err != nil { return err } }]. *)
Fixpoint forEach {A} (xs : list A) (body : A -> M unit) : M unit :=
  match xs with
  | [] => ret tt
  | x :: xs' => body x ;; forEach xs' body
  end.

(** ** Backend commands *)

Definition record (c : Call) (o : option error) (w : World) : World :=
  mkWorld (chains w) (ipsets w) (log w ++ [(c, o)]).

(** One command: it fails if the oracle says so or if the state does not
    admit it, and then changes nothing; every command is logged. *)
Definition command {A} (fault : World -> Call -> option error) (c : Call)
    (sem : World -> error + (A * World)) : M A :=
  fun w =>
    match fault w c with
    | Some e => (Err e, record c (Some e) w)
    | None =>
        match sem w with
        | inl e => (Err e, record c (Some e) w)
        | inr (a, w') => (Ok a, record c None w')
        end
    end.

Definition setChain (table chain : string) (rs : list rulespec) (w : World) : World :=
  mkWorld (<[(table, chain) := rs]> (chains w)) (ipsets w) (log w).

Definition setIpsets (s : list (string * (ipsetType * list string))) (w : World) : World :=
  mkWorld (chains w) s (log w).

(** Modelled from the spec: the chain/table command backend (package
    go-iptables, not part of the sources).  [ClearChain] empties the
    chain, creating it when it does not exist. *)
Definition ClearChain (ipt : IPTables) (table chain : string) : M unit :=
  command (iptFault ipt) (CallClearChain table chain)
    (fun w => inr (tt, setChain table chain [] w)).

(** Modelled from the spec: create-chain; an existing chain is an error. *)
Definition NewChain (ipt : IPTables) (table chain : string) : M unit :=
  command (iptFault ipt) (CallNewChain table chain)
    (fun w =>
       match chains w !! (table, chain) with
       | Some _ => inl (CmdError "Chain already exists.")
       | None => inr (tt, setChain table chain [] w)
       end).

(** Modelled from the spec: append-rule adds the rule at the end of an
    existing chain. *)
Definition Append (ipt : IPTables) (table chain : string) (r : rulespec) : M unit :=
  command (iptFault ipt) (CallAppend table chain r)
    (fun w =>
       match chains w !! (table, chain) with
       | Some rs => inr (tt, setChain table chain (rs ++ [r]) w)
       | None => inl (CmdError "No chain/target/match by that name.")
       end).

(** Modelled from the spec: list-rules returns the chain-declaration
    entry followed by one line per rule, in order. *)
Definition List (ipt : IPTables) (table chain : string) : M (list string) :=
  command (iptFault ipt) (CallList table chain)
    (fun w =>
       match chains w !! (table, chain) with
       | Some rs => inr (("-N " +:+ chain) :: map (iptLine ipt chain) rs, w)
       | None => inl (CmdError "No chain/target/match by that name.")
       end).

Definition hasSet (name : string) (s : list (string * (ipsetType * list string))) : bool :=
  existsb (fun e => String.eqb (fst e) name) s.

(** Modelled from the spec: list-sets-by-prefix (package net/ipset, not
    part of the sources) returns the names that start with [prefix]. *)
Definition IpsList (ips : IPSet) (prefix : string) : M (list string) :=
  command (ipsFault ips) (CallIpsList prefix)
    (fun w => inr (List.filter (fun n => String.prefix prefix n) (map fst (ipsets w)), w)).

(** Modelled from the spec: flush-set empties an existing set. *)
Definition IpsFlush (ips : IPSet) (name : string) : M unit :=
  command (ipsFault ips) (CallIpsFlush name)
    (fun w =>
       if hasSet name (ipsets w)
       then inr (tt, setIpsets
                       (map (fun e => if String.eqb (fst e) name
                                      then (fst e, (fst (snd e), []))
                                      else e) (ipsets w)) w)
       else inl (CmdError "The set with the given name does not exist")).

(** Modelled from the spec: destroy-set removes an existing set. *)
Definition IpsDestroy (ips : IPSet) (name : string) : M unit :=
  command (ipsFault ips) (CallIpsDestroy name)
    (fun w =>
       if hasSet name (ipsets w)
       then inr (tt, setIpsets
                       (List.filter (fun e => negb (String.eqb (fst e) name)) (ipsets w)) w)
       else inl (CmdError "The set with the given name does not exist")).

(** Modelled from the spec: create-set adds an empty set of the given
    type; an existing name is an error. *)
Definition IpsCreate (ips : IPSet) (name : string) (typ : ipsetType) : M unit :=
  command (ipsFault ips) (CallIpsCreate name typ)
    (fun w =>
       if hasSet name (ipsets w)
       then inl (CmdError "set with the same name already exists")
       else inr (tt, setIpsets (ipsets w ++ [(name, (typ, []))]) w)).

(** ** The program *)

(** The constants of package [npc] that the program uses; the package is
    not part of the sources, so they are parameters. *)
Record Npc : Type := mkNpc {
  TableFilter : string;
  MainChain : string;
  DefaultChain : string;
  IngressChain : string;
  EgressChain : string;
  EgressDefaultChain : string;
  EgressCustomChain : string;
  EgressMarkChain : string;
  EgressMark : string;
  IpsetNamePrefix : string;
  LocalIpset : string
}.

Definition newline : string := String (ascii_of_nat 10) EmptyString.

(** [s[1:]] panics on an empty slice. *)
Definition sliceFrom1 (s : list string) : M (list string) :=
  fun w =>
    match s with
    | [] => (Crash (Panicked "slice bounds out of range [1:0]"), w)
    | _ :: t => (Ok t, w)
    end.

(** [for _, s := range sets { if s == name { return true } }; return false]. *)
Fixpoint containsName (sets : list string) (name : string) : bool :=
  match sets with
  | [] => false
  | s :: sets' => if String.eqb s name then true else containsName sets' name
  end.

(** [rules = append(rules, strings.Join(r, " "))] for each [r]. *)
Definition joinRules (rulespecs : list rulespec) : list string :=
  fold_left (fun rules r => rules ++ [String.concat " " r]) rulespecs [].

Section Program.

Variable npc : Npc.
Variable allowMcast : bool.

Definition resetIPTables (ipt : IPTables) : M unit :=
  ClearChain ipt npc.(TableFilter) npc.(IngressChain) ;;
  ClearChain ipt npc.(TableFilter) npc.(DefaultChain) ;;
  ClearChain ipt npc.(TableFilter) npc.(MainChain) ;;
  ClearChain ipt npc.(TableFilter) npc.(EgressMarkChain) ;;
  ClearChain ipt npc.(TableFilter) npc.(EgressCustomChain) ;;
  ClearChain ipt npc.(TableFilter) npc.(EgressDefaultChain) ;;
  ret tt.

Definition resetIPSets (ips : IPSet) : M unit :=
  sets <- IpsList ips npc.(IpsetNamePrefix) ;;
  forEach sets (fun s => IpsFlush ips s) ;;
  forEach sets (fun s =>
    if String.eqb s npc.(LocalIpset) then ret tt
    else IpsDestroy ips s) ;;
  ret tt.

Definition ipsetExist (ips : IPSet) (name : string) : M bool :=
  sets <- IpsList ips name ;;
  ret (containsName sets name).

Definition addChainWithRules (ipt : IPTables) (table chain : string)
    (rulespecs : list rulespec) : M unit :=
  ignoreErr (NewChain ipt table chain) ;;
  currRuleSpecs <- wrapErr (List ipt table chain)
    (fun err => Wrapf err "iptables -S. table: %q, chain: %q" [FStr table; FStr chain]) ;;
  rest <- sliceFrom1 currRuleSpecs ;;
  let currRules := String.concat newline rest in
  let rules := joinRules rulespecs in
  let reqRules := String.concat newline rules in
  if String.eqb currRules reqRules then ret tt
  else
    forEach rulespecs (fun r =>
      wrapErr (Append ipt table chain r)
        (fun err => Wrapf err "iptables -A. table: %q, chain: %q, rule: %s"
                      [FStr table; FStr chain; FStrs r])) ;;
    ret tt.

Definition egressRuleSpecs : list rulespec :=
  let ruleSpecs :=
    [ ["-m"; "state"; "--state"; "RELATED,ESTABLISHED"; "-j"; "RETURN"];
      ["-m"; "state"; "--state"; "NEW"; "-m"; "set"; "!"; "--match-set";
       npc.(LocalIpset); "src"; "-j"; "RETURN"] ] in
  let ruleSpecs :=
    if allowMcast then ruleSpecs ++ [["-d"; "224.0.0.0/4"; "-j"; "RETURN"]]
    else ruleSpecs in
  ruleSpecs ++
    [ ["-m"; "state"; "--state"; "NEW"; "-j"; npc.(EgressDefaultChain)];
      ["-m"; "state"; "--state"; "NEW"; "-m"; "mark"; "!"; "--mark";
       npc.(EgressMark); "-j"; npc.(EgressCustomChain)];
      ["-m"; "state"; "--state"; "NEW"; "-m"; "mark"; "!"; "--mark";
       npc.(EgressMark); "-j"; "NFLOG"; "--nflog-group"; "86"];
      ["-m"; "mark"; "!"; "--mark"; npc.(EgressMark); "-j"; "DROP"] ].

Definition createBaseRules (ipt : IPTables) (ips : IPSet) (legacy : bool) : M unit :=
  Append ipt npc.(TableFilter) npc.(MainChain)
    ["-m"; "state"; "--state"; "RELATED,ESTABLISHED"; "-j"; "ACCEPT"] ;;
  (if allowMcast
   then Append ipt npc.(TableFilter) npc.(MainChain) ["-d"; "224.0.0.0/4"; "-j"; "ACCEPT"]
   else ret tt) ;;
  Append ipt npc.(TableFilter) npc.(MainChain)
    ["-m"; "state"; "--state"; "NEW"; "-j"; npc.(DefaultChain)] ;;
  Append ipt npc.(TableFilter) npc.(MainChain)
    ["-m"; "state"; "--state"; "NEW"; "-j"; npc.(IngressChain)] ;;
  found <- ipsetExist ips npc.(LocalIpset) ;;
  (if negb found then IpsCreate ips npc.(LocalIpset) HashIP else ret tt) ;;
  Append ipt npc.(TableFilter) npc.(MainChain)
    ["-m"; "set"; "!"; "--match-set"; npc.(LocalIpset); "dst"; "-j"; "ACCEPT"] ;;
  (if negb legacy
   then
     Append ipt npc.(TableFilter) npc.(EgressMarkChain)
       ["-j"; "MARK"; "--set-xmark"; npc.(EgressMark)] ;;
     addChainWithRules ipt npc.(TableFilter) npc.(EgressChain) egressRuleSpecs
   else ret tt) ;;
  ret tt.

(** The start of [root]: reset, then the base rules, each under
    [handleError]. *)
Definition bootstrap (ipt : IPTables) (ips : IPSet) : M unit :=
  handleError (resetIPTables ipt) ;;
  handleError (resetIPSets ips).

Definition startFilterState (ipt : IPTables) (ips : IPSet) (legacy : bool) : M unit :=
  bootstrap ipt ips ;;
  handleError (createBaseRules ipt ips legacy).

End Program.

(** ** The watch dispatcher *)

Record Namespace : Type := mkNamespace {
  nsName : string;
  nsLabels : list (string * string)
}.

Record Pod : Type := mkPod {
  podNamespace : string;
  podName : string;
  podLabels : list (string * string);
  podIP : string
}.

Record NetworkPolicy : Type := mkNetworkPolicy {
  npNamespace : string;
  npName : string
}.

(** The dynamic values of the [interface{}] payload of a watch event.
    A pointer may be nil ([None]). *)
Inductive Obj : Type :=
| NilObj
| NamespacePtr (ns : option Namespace)
| PodPtr (pod : option Pod)
| ExtnNetworkPolicyPtr (np : option NetworkPolicy)
| NetworkingNetworkPolicyPtr (np : option NetworkPolicy)
| DeletedFinalStateUnknown (Key : string) (Obj : Obj)
| OtherObj (typeName : string).

(** The methods of the policy engine ([npc.New(...)]). *)
Inductive EngineCall : Type :=
| AddNamespace (ns : option Namespace)
| UpdateNamespace (old new : option Namespace)
| DeleteNamespace (ns : option Namespace)
| AddPod (pod : option Pod)
| UpdatePod (old new : option Pod)
| DeletePod (pod : option Pod)
| AddNetworkPolicy (obj : Obj)
| UpdateNetworkPolicy (old new : Obj)
| DeleteNetworkPolicy (obj : Obj).

(** What a handler did: the engine calls it made, and whether it ended
    the process. *)
Definition Handled : Type := list EngineCall * option crash.



(** [cache.ResourceEventHandlerFuncs]. *)
Record ResourceEventHandlerFuncs : Type := mkHandlers {
  AddFunc : Obj -> Handled;
  DeleteFunc : Obj -> Handled;
  UpdateFunc : Obj -> Obj -> Handled
}.



Section Dispatcher.

(** The policy engine answers each call with an error or nil. *)
Variable engine : EngineCall -> option error.

(** [handleError(npc.Method(...))]. *)
Definition handleCall (c : EngineCall) : Handled :=
  ([c], match engine c with
        | Some e => Some (Fatal e)
        | None => None
        end).

(** A failed type assertion [x.(T)]. *)
Definition conversionPanic : Handled :=
  ([], Some (Panicked "interface conversion")).

Definition asNamespace (obj : Obj) (k : option Namespace -> Handled) : Handled :=
  match obj with
  | NamespacePtr ns => k ns
  | _ => conversionPanic
  end.

Definition asPod (obj : Obj) (k : option Pod -> Handled) : Handled :=
  match obj with
  | PodPtr pod => k pod
  | _ => conversionPanic
  end.

Definition nsHandlers : ResourceEventHandlerFuncs :=
  {| AddFunc := fun obj => asNamespace obj (fun ns => handleCall (AddNamespace ns));
     DeleteFunc := fun obj =>
       match obj with
       | NamespacePtr ns => handleCall (DeleteNamespace ns)
       | DeletedFinalStateUnknown _ last =>
           asNamespace last (fun ns => handleCall (DeleteNamespace ns))
       | _ => ([], None)
       end;
     UpdateFunc := fun old new =>
       asNamespace old (fun o => asNamespace new (fun n =>
         handleCall (UpdateNamespace o n))) |}.

Definition podHandlers : ResourceEventHandlerFuncs :=
  {| AddFunc := fun obj => asPod obj (fun pod => handleCall (AddPod pod));
     DeleteFunc := fun obj =>
       match obj with
       | PodPtr pod => handleCall (DeletePod pod)
       | DeletedFinalStateUnknown _ last =>
           asPod last (fun pod => handleCall (DeletePod pod))
       | _ => ([], None)
       end;
     UpdateFunc := fun old new =>
       asPod old (fun o => asPod new (fun n => handleCall (UpdatePod o n))) |}.

Definition npHandlers : ResourceEventHandlerFuncs :=
  {| AddFunc := fun obj => handleCall (AddNetworkPolicy obj);
     DeleteFunc := fun obj =>
       match obj with
       | DeletedFinalStateUnknown _ last => handleCall (DeleteNetworkPolicy last)
       | _ => handleCall (DeleteNetworkPolicy obj)
       end;
     UpdateFunc := fun old new => handleCall (UpdateNetworkPolicy old new) |}.




End Dispatcher.

(** ** A concrete instance of the parameters *)

(** The names the source's comments mention ([weave-], [WEAVE-NPC-EGRESS])
    and distinct names for the rest. *)
Definition weaveNpc : Npc :=
  {| TableFilter := "filter";
     MainChain := "WEAVE-NPC";
     DefaultChain := "WEAVE-NPC-DEFAULT";
     IngressChain := "WEAVE-NPC-INGRESS";
     EgressChain := "WEAVE-NPC-EGRESS";
     EgressDefaultChain := "WEAVE-NPC-EGRESS-DEFAULT";
     EgressCustomChain := "WEAVE-NPC-EGRESS-CUSTOM";
     EgressMarkChain := "WEAVE-NPC-EGRESS-ACCEPT";
     EgressMark := "0x40000/0x40000";
     IpsetNamePrefix := "weave-";
     LocalIpset := "weave-local-pods" |}.

(** A backend in which no command fails unless the state forbids it, and
    whose listing prints a rule as its tokens joined by spaces. *)
Definition noFault : World -> Call -> option error := fun _ _ => None.

Definition plainIpt : IPTables := mkIPTables noFault (fun _ r => String.concat " " r).

(** The same, with the listing in the format of [iptables -S]. *)
Definition dashAIpt : IPTables :=
  mkIPTables noFault (fun chain r => String.concat " " ("-A" :: chain :: r)).

Definition plainIps : IPSet := mkIPSet noFault.

Definition emptyWorld : World := mkWorld ∅ [] [].

(** Three rules and a chain that holds the first two, for the examples. *)
Definition ruleA : rulespec := ["-j"; "A"].
Definition ruleB : rulespec := ["-j"; "B"].
Definition ruleC : rulespec := ["-j"; "C"].

Definition worldAB : World := setChain "filter" "X" [ruleA; ruleB] emptyWorld.

(** The entries a program added to the log. *)
Definition okEntry (entry : Call * option error) : Prop := snd entry = None.

Definition isAppend (c : Call) : bool :=
  match c with
  | CallAppend _ _ _ => true
  | _ => false
  end.

(** The rule lists of a chain, rendered as [addChainWithRules] compares
    them: what [List] prints for the chain, without the declaration
    entry, and the desired rules. *)
Definition currText (ipt : IPTables) (chain : string) (rs : list rulespec) : string :=
  String.concat newline (map (iptLine ipt chain) rs).

Definition reqText (rulespecs : list rulespec) : string :=
  String.concat newline (joinRules rulespecs).

(** The two error wrappers of [addChainWithRules] and its append loop. *)
Definition wrapList (table chain : string) (err : error) : error :=
  Wrapf err "iptables -S. table: %q, chain: %q" [FStr table; FStr chain].

Definition wrapAppend (table chain : string) (r : rulespec) (err : error) : error :=
  Wrapf err "iptables -A. table: %q, chain: %q, rule: %s"
    [FStr table; FStr chain; FStrs r].

Definition appendAll (ipt : IPTables) (table chain : string)
    (rulespecs : list rulespec) : M unit :=
  forEach rulespecs (fun r =>
    wrapErr (Append ipt table chain r) (wrapAppend table chain r)).

(** The log of commands that all succeeded. *)
Definition okEntries (cs : list Call) : list (Call * option error) :=
  map (fun c => (c, None)) cs.

(** The log of a batch of successful appends. *)
Definition appendEntries (t c : string) (rs : list rulespec) : list (Call * option error) :=
  okEntries (map (CallAppend t c) rs).

(** A program runs a plan of commands when it issues them in order and
    stops at the first one that fails, handing that error to [fail]. *)
Definition runsPlan (plan : list Call) (fail : error -> Result unit)
    (r : Result unit) (new : list (Call * option error)) : Prop :=
  (r = Ok tt /\ new = okEntries plan) \/
  (exists pre c post e,
      plan = pre ++ c :: post /\ r = fail e /\
      new = okEntries pre ++ [(c, Some e)]).

Definition runs (m : M unit) (plan : list Call) (fail : error -> Result unit)
    (w : World) : Prop :=
  exists new, log (snd (m w)) = log w ++ new /\ runsPlan plan fail (fst (m w)) new.

(** A relation between the worlds before and after that every step of a
    program keeps. *)
Definition preserves {A} (I : World -> World -> Prop) (m : M A) : Prop :=
  forall w, I w (snd (m w)).


Definition sameChain (k : string * string) (w w' : World) : Prop :=
  chains w' !! k = chains w !! k.

(** No set appears that was not there. *)
Definition setsShrink (w w' : World) : Prop :=
  forall n, hasSet n (ipsets w') = true -> hasSet n (ipsets w) = true.

(** The chains [resetIPTables] clears, in its order, and its plan. *)
Definition clearedChains (npc : Npc) : list string :=
  [npc.(IngressChain); npc.(DefaultChain); npc.(MainChain);
   npc.(EgressMarkChain); npc.(EgressCustomChain); npc.(EgressDefaultChain)].

Definition clearPlan (npc : Npc) : list Call :=
  map (CallClearChain npc.(TableFilter)) (clearedChains npc).

Definition fatal (e : error) : Result unit := Crash (Fatal e).

Definition sameIpsets (w w' : World) : Prop := ipsets w' = ipsets w.

(** Every set named [n] is empty. *)
Definition flushedSet (n : string) (w : World) : Prop :=
  forall ty ms, In (n, (ty, ms)) (ipsets w) -> ms = [].

Definition staysFlushed (n : string) (w w' : World) : Prop :=
  flushedSet n w -> flushedSet n w'.

(** The names [resetIPSets] gets from its listing in a world, and its
    plan: list, flush each, destroy each but the local-pods set. *)
Definition prefixedSets (npc : Npc) (w : World) : list string :=
  List.filter (fun n => String.prefix npc.(IpsetNamePrefix) n) (map fst (ipsets w)).

Definition ipsetPlan (npc : Npc) (w : World) : list Call :=
  CallIpsList npc.(IpsetNamePrefix)
  :: map CallIpsFlush (prefixedSets npc w)
  ++ map CallIpsDestroy
       (List.filter (fun s => negb (String.eqb s npc.(LocalIpset))) (prefixedSets npc w)).

(** The body of the second loop of [resetIPSets]. *)
Definition destroyBody (npc : Npc) (ips : IPSet) (s : string) : M unit :=
  if String.eqb s npc.(LocalIpset) then ret tt else IpsDestroy ips s.

(** The rules [createBaseRules] appends to the Main chain, in its order,
    and the commands it issues for them; the set is created when the
    probe did not find it. *)
Definition mainRuleSpecs (npc : Npc) (allowMcast : bool) : list rulespec :=
  [["-m"; "state"; "--state"; "RELATED,ESTABLISHED"; "-j"; "ACCEPT"]]
  ++ (if allowMcast then [["-d"; "224.0.0.0/4"; "-j"; "ACCEPT"]] else [])
  ++ [["-m"; "state"; "--state"; "NEW"; "-j"; npc.(DefaultChain)];
      ["-m"; "state"; "--state"; "NEW"; "-j"; npc.(IngressChain)];
      ["-m"; "set"; "!"; "--match-set"; npc.(LocalIpset); "dst"; "-j"; "ACCEPT"]].

Definition mainPlan (npc : Npc) (allowMcast found : bool) : list Call :=
  [CallAppend npc.(TableFilter) npc.(MainChain)
     ["-m"; "state"; "--state"; "RELATED,ESTABLISHED"; "-j"; "ACCEPT"]]
  ++ (if allowMcast
      then [CallAppend npc.(TableFilter) npc.(MainChain)
              ["-d"; "224.0.0.0/4"; "-j"; "ACCEPT"]]
      else [])
  ++ [CallAppend npc.(TableFilter) npc.(MainChain)
        ["-m"; "state"; "--state"; "NEW"; "-j"; npc.(DefaultChain)];
      CallAppend npc.(TableFilter) npc.(MainChain)
        ["-m"; "state"; "--state"; "NEW"; "-j"; npc.(IngressChain)];
      CallIpsList npc.(LocalIpset)]
  ++ (if found then [] else [CallIpsCreate npc.(LocalIpset) HashIP])
  ++ [CallAppend npc.(TableFilter) npc.(MainChain)
        ["-m"; "set"; "!"; "--match-set"; npc.(LocalIpset); "dst"; "-j"; "ACCEPT"]].

(** The last step of [createBaseRules]: the egress pipeline, unless in
    legacy mode. *)
Definition egressStep (npc : Npc) (allowMcast : bool) (ipt : IPTables)
    (legacy : bool) : M unit :=
  if negb legacy
  then
    Append ipt npc.(TableFilter) npc.(EgressMarkChain)
      ["-j"; "MARK"; "--set-xmark"; npc.(EgressMark)] ;;
    addChainWithRules ipt npc.(TableFilter) npc.(EgressChain)
      (egressRuleSpecs npc allowMcast)
  else ret tt.


(** The world after the bootstrapper ran on nothing. *)
Definition worldReset : World := snd (bootstrap weaveNpc plainIpt plainIps emptyWorld).

(** The log grows by commands that satisfy [P]. *)
Definition logGrowsBy (P : Call -> Prop) (w w' : World) : Prop :=
  exists new, log w' = log w ++ new /\ Forall (fun entry => P (fst entry)) new.


(** A world with three sets, two of them with the reserved prefix. *)
Definition worldSets : World :=
  setIpsets [("weave-local-pods", (HashIP, ["10.32.0.2"]));
             ("weave-k8s-ns", (ListSet, ["weave-local-pods"]));
             ("docker-hosts", (HashIP, ["172.17.0.1"]))] emptyWorld.

(** Kinds of delete payloads. *)
Definition isTombstone (obj : Obj) : bool :=
  match obj with
  | DeletedFinalStateUnknown _ _ => true
  | _ => false
  end.

Definition isNamespacePtr (obj : Obj) : bool :=
  match obj with
  | NamespacePtr _ => true
  | _ => false
  end.

Definition isPodPtr (obj : Obj) : bool :=
  match obj with
  | PodPtr _ => true
  | _ => false
  end.

(** A policy engine whose calls all succeed. *)
Definition noEngineError : EngineCall -> option error := fun _ => None.

(** A way of failing never looks like success. *)
Definition failing (fail : error -> Result unit) : Prop :=
  forall e, fail e <> Ok tt.

(** Closes the goal that the state change of a command keeps the log. *)
Ltac keeps_log :=
  let H := fresh in
  intros ? ? ? H;
  repeat match type of H with
         | context [match ?x with _ => _ end] => destruct x
         end;
  inversion H; subst; reflexivity.

(** ** Further relations between the worlds before and after *)

(** The sets whose name does not carry the reserved prefix, as they are
    stored. *)
Definition unprefixed (npc : Npc) (w : World) : list (string * (ipsetType * list string)) :=
  List.filter (fun e => negb (String.prefix npc.(IpsetNamePrefix) (fst e))) (ipsets w).

Definition sameUnprefixed (npc : Npc) (w w' : World) : Prop :=
  unprefixed npc w' = unprefixed npc w.

(** The set [n] is there with the same type, whatever its members. *)
Definition sameTyped (n : string) (w w' : World) : Prop :=
  forall ty, (exists ms, In (n, (ty, ms)) (ipsets w)) <->
             (exists ms, In (n, (ty, ms)) (ipsets w')).

(** The commands of the reconciler on a chain. *)
Definition reconcilerCall (t c : string) (call : Call) : Prop :=
  match call with
  | CallNewChain t' c' | CallList t' c' | CallAppend t' c' _ => (t', c') = (t, c)
  | _ => False
  end.

(** An oracle that fails the command issued when the log holds [n]
    entries. *)
Definition failAt (n : nat) (e : error) : World -> Call -> option error :=
  fun w _ => if Nat.eqb (length (log w)) n then Some e else None.

(** The seven chain names. *)
Definition allChains (npc : Npc) : list string :=
  clearedChains npc ++ [npc.(EgressChain)].

(** ** Outcomes of a handler *)

Definition panicked (h : Handled) : Prop :=
  exists msg, snd h = Some (Panicked msg).


(** ** The start of [root] *)

(** What the start of [root] gets from outside: the flag and the
    environment variable for the node name, and the outcome of each
    set-up call ([metrics.Start], [ulogd.Start], [rest.InClusterConfig],
    [kubernetes.NewForConfig], [iptables.New]). *)
Record Setup : Type := mkSetup {
  flagNodeName : string;
  envHostname : string;
  metricsStart : option error;
  ulogdStart : option error;
  inClusterConfig : option error;
  newForConfig : option error;
  iptablesNew : option error
}.

(** How the process ends before the controllers run. *)
Inductive Exit : Type :=
| ExitNoNodeName
| ExitMetrics (e : error)
| ExitUlogd (e : error)
| ExitCheckFatal (e : error)
| ExitPanic (msg : string).

(** [--node-name], or [$HOSTNAME] when the flag is empty. *)
Definition resolveNodeName (s : Setup) : string :=
  if String.eqb (flagNodeName s) "" then envHostname s else flagNodeName s.

(** [root] up to [npc.New]: the node name, the set-up calls, then the
    reset and the base rules; it yields the node name given to the
    policy engine. *)
Definition rootStart (npc : Npc) (allowMcast : bool) (s : Setup)
    (ipt : IPTables) (ips : IPSet) (legacy : bool)
    (w : World) : (Exit + string) * World :=
  let nodeName := resolveNodeName s in
  if String.eqb nodeName "" then (inl ExitNoNodeName, w) else
  match metricsStart s with
  | Some e => (inl (ExitMetrics e), w)
  | None =>
  match ulogdStart s with
  | Some e => (inl (ExitUlogd e), w)
  | None =>
  match inClusterConfig s with
  | Some e => (inl (ExitCheckFatal e), w)
  | None =>
  match newForConfig s with
  | Some e => (inl (ExitCheckFatal e), w)
  | None =>
  match iptablesNew s with
  | Some e => (inl (ExitCheckFatal e), w)
  | None =>
  match startFilterState npc allowMcast ipt ips legacy w with
  | (Ok _, w') => (inr nodeName, w')
  | (Err e, w') => (inl (ExitCheckFatal e), w')
  | (Crash (Fatal e), w') => (inl (ExitCheckFatal e), w')
  | (Crash (Panicked msg), w') => (inl (ExitPanic msg), w')
  end end end end end end.

(** Every set-up call succeeded. *)
Definition setupOk (s : Setup) : bool :=
  match metricsStart s, ulogdStart s, inClusterConfig s, newForConfig s, iptablesNew s with
  | None, None, None, None, None => true
  | _, _, _, _, _ => false
  end.

(** A set-up on a node with a host name and no flag. *)
Definition setupHost : Setup :=
  mkSetup "" "node-1" None None None None None.

(** The egress rules spelled out in their order: return for
    established/related, return for new connections whose source is not a
    local pod, return to 224.0.0.0/4 when multicast is allowed, jump to
    EgressDefault, jump to EgressCustom when not marked, log when not
    marked, drop when not marked. *)
Definition egressRulesInOrder (npc : Npc) (allowMcast : bool) : list rulespec :=
  [["-m"; "state"; "--state"; "RELATED,ESTABLISHED"; "-j"; "RETURN"];
   ["-m"; "state"; "--state"; "NEW"; "-m"; "set"; "!"; "--match-set";
    npc.(LocalIpset); "src"; "-j"; "RETURN"]]
  ++ (if allowMcast then [["-d"; "224.0.0.0/4"; "-j"; "RETURN"]] else [])
  ++ [["-m"; "state"; "--state"; "NEW"; "-j"; npc.(EgressDefaultChain)];
      ["-m"; "state"; "--state"; "NEW"; "-m"; "mark"; "!"; "--mark";
       npc.(EgressMark); "-j"; npc.(EgressCustomChain)];
      ["-m"; "state"; "--state"; "NEW"; "-m"; "mark"; "!"; "--mark";
       npc.(EgressMark); "-j"; "NFLOG"; "--nflog-group"; "86"];
      ["-m"; "mark"; "!"; "--mark"; npc.(EgressMark); "-j"; "DROP"]].


(** * Properties *)

(** ** Generic facts about the monad and the commands *)

Lemma bind_ok {A B} (m : M A) (k : A -> M B) w b w' :
  bind m k w = (Ok b, w') ->
  exists a w1, m w = (Ok a, w1) /\ k a w1 = (Ok b, w').
Proof.
  unfold bind. destruct (m w) as [[a|e|c] w1]; intros H; try discriminate.
  eauto.
Qed.

Lemma command_ok {A} fault c sem w (a : A) w' :
  command fault c sem w = (Ok a, w') ->
  exists w1, fault w c = None /\ sem w = inr (a, w1) /\ w' = record c None w1.
Proof.
  unfold command. destruct (fault w c); [discriminate|].
  destruct (sem w) as [e|[a1 w1]]; [discriminate|].
  intros H; inversion H; subst. eauto.
Qed.

Lemma command_err {A} fault c (sem : World -> error + (A * World)) w e w' :
  command fault c sem w = (Err e, w') -> w' = record c (Some e) w.
Proof.
  unfold command. destruct (fault w c).
  - intros H; inversion H; subst; reflexivity.
  - destruct (sem w) as [e1|[a1 w1]]; intros H; inversion H; subst; reflexivity.
Qed.

Lemma command_no_crash {A} fault c (sem : World -> error + (A * World)) w x w' :
  command fault c sem w <> (Crash x, w').
Proof.
  unfold command. destruct (fault w c); [discriminate|].
  destruct (sem w) as [e1|[a1 w1]]; discriminate.
Qed.

(** ** The chain reconciler, step by step *)

(** The create step never fails for the caller, logs one entry, and
    leaves an existing chain as it is. *)
Lemma newChain_step ipt t c w :
  exists o w1,
    ignoreErr (NewChain ipt t c) w = (Ok tt, w1) /\
    log w1 = log w ++ [(CallNewChain t c, o)] /\
    ipsets w1 = ipsets w /\
    (forall k, k <> (t, c) -> chains w1 !! k = chains w !! k) /\
    (forall rs, chains w !! (t, c) = Some rs -> chains w1 !! (t, c) = Some rs) /\
    (o = None -> chains w !! (t, c) = None /\ chains w1 !! (t, c) = Some []).
Proof.
  unfold ignoreErr, NewChain, command.
  destruct (iptFault ipt w (CallNewChain t c)) as [e|] eqn:Hf.
  - exists (Some e), (record (CallNewChain t c) (Some e) w).
    repeat split; cbn; auto; intros; try discriminate; auto.
  - destruct (chains w !! (t, c)) as [rs0|] eqn:Hc.
    + eexists (Some _), (record (CallNewChain t c) (Some _) w).
      repeat split; cbn; auto; intros; try discriminate; congruence.
    + exists None, (record (CallNewChain t c) None (setChain t c [] w)).
      repeat split; auto; cbn.
      * intros k Hk. rewrite lookup_insert_ne; auto.
      * intros rs Hrs; discriminate.
      * apply lookup_insert_eq.
Qed.

(** After the create step the reconciler lists the chain; it returns the
    wrapped listing error, or compares and possibly appends. *)
Lemma addChainWithRules_after_create ipt t c rulespecs w w1 :
  ignoreErr (NewChain ipt t c) w = (Ok tt, w1) ->
  (exists e,
      List ipt t c w1 = (Err e, record (CallList t c) (Some e) w1) /\
      addChainWithRules ipt t c rulespecs w
      = (Err (wrapList t c e), record (CallList t c) (Some e) w1))
  \/
  (exists cur,
      chains w1 !! (t, c) = Some cur /\
      iptFault ipt w1 (CallList t c) = None /\
      addChainWithRules ipt t c rulespecs w
      = if String.eqb (currText ipt c cur) (reqText rulespecs)
        then (Ok tt, record (CallList t c) None w1)
        else (appendAll ipt t c rulespecs ;; ret tt)
               (record (CallList t c) None w1)).
Proof.
  intros Hn. unfold addChainWithRules, bind. rewrite Hn.
  unfold wrapErr at 1 3. unfold List, command.
  destruct (iptFault ipt w1 (CallList t c)) as [e|] eqn:Hf.
  - left. exists e. split; reflexivity.
  - destruct (chains w1 !! (t, c)) as [cur|] eqn:Hc.
    + right. exists cur. split; [reflexivity|]. split; [reflexivity|].
      unfold sliceFrom1, currText, reqText.
      destruct (String.eqb _ _); reflexivity.
    + left. eexists. split; reflexivity.
Qed.

Lemma append_ok ipt t c r w w' :
  wrapErr (Append ipt t c r) (wrapAppend t c r) w = (Ok tt, w') ->
  exists cur, chains w !! (t, c) = Some cur /\
    w' = record (CallAppend t c r) None (setChain t c (cur ++ [r]) w).
Proof.
  unfold wrapErr, Append, command.
  destruct (iptFault ipt w (CallAppend t c r)); [discriminate|].
  destruct (chains w !! (t, c)) as [cur|]; [|discriminate].
  intros H; inversion H; subst. eauto.
Qed.

Lemma append_err ipt t c r w e w' :
  wrapErr (Append ipt t c r) (wrapAppend t c r) w = (Err e, w') ->
  exists e0, e = wrapAppend t c r e0 /\ w' = record (CallAppend t c r) (Some e0) w.
Proof.
  unfold wrapErr, Append, command.
  destruct (iptFault ipt w (CallAppend t c r)) as [e0|].
  - intros H; inversion H; subst. eauto.
  - destruct (chains w !! (t, c)) as [cur|]; intros H; inversion H; subst. eauto.
Qed.

Lemma append_no_crash ipt t c r w x w' :
  wrapErr (Append ipt t c r) (wrapAppend t c r) w <> (Crash x, w').
Proof.
  unfold wrapErr, Append, command.
  destruct (iptFault ipt w (CallAppend t c r)); [discriminate|].
  destruct (chains w !! (t, c)); discriminate.
Qed.

(** A successful batch of appends adds the rules at the end of the
    chain, in order, and touches nothing else. *)
Lemma appendAll_ok ipt t c rs : forall w w' cur,
  appendAll ipt t c rs w = (Ok tt, w') ->
  chains w !! (t, c) = Some cur ->
  chains w' !! (t, c) = Some (cur ++ rs) /\
  (forall k, k <> (t, c) -> chains w' !! k = chains w !! k) /\
  ipsets w' = ipsets w /\
  log w' = log w ++ appendEntries t c rs.
Proof.
  induction rs as [|r rs IH]; intros w w' cur Hrun Hcur.
  - inversion Hrun; subst. rewrite !app_nil_r. auto.
  - unfold appendAll in Hrun. cbn [forEach] in Hrun.
    apply bind_ok in Hrun as ([] & w1 & H1 & H2).
    apply append_ok in H1 as (cur1 & Hc1 & ->).
    rewrite Hcur in Hc1; inversion Hc1; subst cur1.
    apply (IH _ _ (cur ++ [r])) in H2 as (Hch & Hfr & Hip & Hlog).
    + rewrite Hch, Hlog. cbn. rewrite <- !app_assoc. repeat split; auto.
      intros k Hk. rewrite Hfr by auto. cbn. apply lookup_insert_ne. congruence.
    + cbn. apply lookup_insert_eq.
Qed.

(** A failing batch stops at the first append that fails and returns its
    wrapped error. *)
Lemma appendAll_err ipt t c rs : forall w e w',
  appendAll ipt t c rs w = (Err e, w') ->
  exists pre r post e0,
    rs = pre ++ r :: post /\ e = wrapAppend t c r e0 /\
    log w' = log w ++ appendEntries t c pre ++ [(CallAppend t c r, Some e0)].
Proof.
  induction rs as [|r rs IH]; intros w e w' Hrun.
  - discriminate.
  - unfold appendAll in Hrun. cbn [forEach] in Hrun. unfold bind in Hrun.
    destruct (wrapErr (Append ipt t c r) (wrapAppend t c r) w)
      as [[[]|e1|x] w1] eqn:H1.
    + apply append_ok in H1 as (cur1 & Hc1 & ->).
      apply IH in Hrun as (pre & r' & post & e0 & -> & -> & Hlog).
      exists (r :: pre), r', post, e0. repeat split; auto.
      rewrite Hlog. cbn. rewrite <- !app_assoc. reflexivity.
    + inversion Hrun; subst.
      apply append_err in H1 as (e0 & -> & ->).
      exists [], r, rs, e0. repeat split; auto.
    + discriminate.
Qed.

Lemma appendAll_no_crash ipt t c rs : forall w x w',
  appendAll ipt t c rs w <> (Crash x, w').
Proof.
  induction rs as [|r rs IH]; intros w x w' Hrun.
  - discriminate.
  - unfold appendAll in Hrun. cbn [forEach] in Hrun. unfold bind in Hrun.
    destruct (wrapErr (Append ipt t c r) (wrapAppend t c r) w)
      as [[[]|e1|y] w1] eqn:H1.
    + exact (IH _ _ _ Hrun).
    + discriminate.
    + exact (append_no_crash _ _ _ _ _ _ _ H1).
Qed.

Lemma seq_ret_ok (m : M unit) w w' :
  (m ;; ret tt) w = (Ok tt, w') <-> m w = (Ok tt, w').
Proof.
  unfold bind, ret. destruct (m w) as [[[]|e|x] w1]; split; intros H;
    inversion H; subst; reflexivity.
Qed.

Lemma seq_ret (m : M unit) w : (m ;; ret tt) w = m w.
Proof.
  unfold bind, ret. destruct (m w) as [[[]|e|x] w1]; reflexivity.
Qed.

(** ** The chain reconciler: claims *)




(** The part of C2 that the code has: when the listing of the chain
    already equals the desired rules as text, no append is issued and
    the state is left as it was. *)
Lemma addChainWithRules_equal_noop ipt t c cur desired w :
  chains w !! (t, c) = Some cur ->
  currText ipt c cur = reqText desired ->
  chains (snd (addChainWithRules ipt t c desired w)) = chains w /\
  ipsets (snd (addChainWithRules ipt t c desired w)) = ipsets w /\
  exists o1 o2,
    log (snd (addChainWithRules ipt t c desired w))
    = log w ++ [(CallNewChain t c, o1); (CallList t c, o2)].
Proof.
  intros Hcur Heq.
  destruct (newChain_step ipt t c w) as (o & w1 & Hn & Hlog1 & Hip1 & Hfr1 & Hsame & Hnew).
  assert (Hch1 : chains w1 = chains w).
  { apply map_eq. intros k. destruct (decide (k = (t, c))) as [->|Hk].
    - rewrite (Hsame _ Hcur). auto.
    - auto. }
  destruct (addChainWithRules_after_create ipt t c desired w w1 Hn)
    as [(e & _ & Hrun)|(cur1 & Hc1 & _ & Hrun)]; rewrite Hrun.
  - cbn. repeat split; auto. exists o, (Some e).
    rewrite Hlog1, <- app_assoc. reflexivity.
  - rewrite (Hsame _ Hcur) in Hc1. inversion Hc1; subst cur1.
    apply String.eqb_eq in Heq. rewrite Heq. cbn.
    repeat split; auto. exists o, None.
    rewrite Hlog1, <- app_assoc. reflexivity.
Qed.

(** C2 at its failing input: on a chain [A; B], two calls in a row with
    the desired rules [A; C] issue two append batches; the second call
    appends again, leaving [A; B; A; C; A; C]. *)
Theorem C2_second_call_appends_again :
  let twice := addChainWithRules plainIpt "filter" "X" [ruleA; ruleC] ;;
               addChainWithRules plainIpt "filter" "X" [ruleA; ruleC] in
  fst (twice worldAB) = Ok tt /\
  chains (snd (twice worldAB)) !! ("filter", "X")
    = Some [ruleA; ruleB; ruleA; ruleC; ruleA; ruleC] /\
  List.filter (fun entry => isAppend (fst entry)) (log (snd (twice worldAB)))
    = appendEntries "filter" "X" [ruleA; ruleC]
      ++ appendEntries "filter" "X" [ruleA; ruleC].
Proof.
  vm_compute. repeat split; reflexivity.
Qed.

(** C10: whatever the create step answers, the reconciler goes on to
    list the chain, and what it returns is decided by the listing and
    the appends alone: nil, the wrapped listing error, or the wrapped
    error of the first failing append.  The create error is returned in
    no case. *)
Theorem C10_create_error_discarded ipt t c rulespecs w :
  exists o1 o2 rest,
    log (snd (addChainWithRules ipt t c rulespecs w))
    = log w ++ (CallNewChain t c, o1) :: (CallList t c, o2) :: rest /\
    match o2 with
    | Some e2 =>
        fst (addChainWithRules ipt t c rulespecs w) = Err (wrapList t c e2) /\
        rest = []
    | None =>
        (fst (addChainWithRules ipt t c rulespecs w) = Ok tt /\
         Forall okEntry rest) \/
        (exists pre r e3,
            fst (addChainWithRules ipt t c rulespecs w) = Err (wrapAppend t c r e3) /\
            rest = appendEntries t c pre ++ [(CallAppend t c r, Some e3)])
    end.
Proof.
  destruct (newChain_step ipt t c w) as (o & w1 & Hn & Hlog1 & _).
  destruct (addChainWithRules_after_create ipt t c rulespecs w w1 Hn)
    as [(e & _ & Hrun)|(cur & Hc & _ & Hrun)]; rewrite Hrun.
  - exists o, (Some e), []. cbn. rewrite Hlog1, <- app_assoc. auto.
  - destruct (String.eqb _ _).
    + exists o, None, []. cbn. rewrite Hlog1, <- app_assoc. split; auto.
    + rewrite seq_ret.
      destruct (appendAll ipt t c rulespecs (record (CallList t c) None w1))
        as [[[]|e|x] w2] eqn:Happ.
      * pose proof (appendAll_ok ipt t c rulespecs _ _ cur Happ Hc)
          as (_ & _ & _ & Hlog).
        exists o, None, (appendEntries t c rulespecs). cbn.
        rewrite Hlog. cbn. rewrite Hlog1, <- !app_assoc. split; auto.
        left. split; auto. unfold appendEntries.
        apply List.Forall_map, List.Forall_forall. intros r _. reflexivity.
      * apply appendAll_err in Happ as (pre & r & post & e0 & -> & -> & Hlog).
        exists o, None, (appendEntries t c pre ++ [(CallAppend t c r, Some e0)]).
        cbn. rewrite Hlog. cbn. rewrite Hlog1, <- !app_assoc. split; auto.
        right. eauto.
      * exfalso. exact (appendAll_no_crash _ _ _ _ _ _ _ Happ).
Qed.

(** ** Plans: commands in order, stopping at the first failure *)

Lemma bind_not_ok {A B} (m : M A) (k : A -> M B) w :
  (forall a, fst (m w) <> Ok a) ->
  fst (bind m k w) = match fst (m w) with
                     | Ok _ => fst (bind m k w)
                     | Err e => Err e
                     | Crash x => Crash x
                     end /\
  snd (bind m k w) = snd (m w).
Proof.
  unfold bind. destruct (m w) as [[a|e|x] w1]; cbn; intros H; auto.
  exfalso. exact (H a eq_refl).
Qed.

Lemma failing_Err : failing Err.
Proof. intros e; discriminate. Qed.

Lemma failing_fatal : failing fatal.
Proof. intros e; discriminate. Qed.

Lemma runs_ret fail w : runs (ret tt) [] fail w.
Proof.
  exists []. cbn. rewrite app_nil_r. split; auto. left. auto.
Qed.

Lemma runs_seq m1 m2 p1 p2 fail w :
  failing fail ->
  runs m1 p1 fail w ->
  (forall w1, m1 w = (Ok tt, w1) -> runs m2 p2 fail w1) ->
  runs (m1 ;; m2) (p1 ++ p2) fail w.
Proof.
  intros Hfail (new1 & Hlog1 & Hplan1) H2.
  destruct Hplan1 as [(Hr & ->)|(pre & c & post & e & -> & Hr & ->)].
  - destruct (m1 w) as [r1 w1] eqn:Hm1. cbn in Hr, Hlog1. subst r1.
    destruct (H2 w1 eq_refl) as (new2 & Hlog2 & Hplan2).
    unfold runs, bind. rewrite Hm1.
    exists (okEntries p1 ++ new2). split.
    + rewrite Hlog2, Hlog1, <- app_assoc. reflexivity.
    + destruct Hplan2 as [(Hr2 & ->)|(pre & c & post & e & -> & Hr2 & ->)].
      * left. split; auto. unfold okEntries. rewrite map_app. reflexivity.
      * right. exists (p1 ++ pre), c, post, e. rewrite <- app_assoc.
        repeat split; auto. unfold okEntries. rewrite map_app, <- app_assoc.
        reflexivity.
  - unfold runs, bind. destruct (m1 w) as [[[]|e1|x] w1] eqn:Hm1; cbn in *.
    + exfalso. exact (Hfail e (eq_sym Hr)).
    + eexists. split; [exact Hlog1|]. right.
      exists pre, c, (post ++ p2), e. rewrite <- app_assoc. auto.
    + eexists. split; [exact Hlog1|]. right.
      exists pre, c, (post ++ p2), e. rewrite <- app_assoc. auto.
Qed.

Lemma runs_command fault c (sem : World -> error + (unit * World)) w :
  (forall a w1, sem w = inr (a, w1) -> log w1 = log w) ->
  runs (command fault c sem) [c] Err w.
Proof.
  intros Hsem. unfold runs, command. destruct (fault w c) as [e|].
  - exists [(c, Some e)]. split; auto. right. exists [], c, [], e. auto.
  - destruct (sem w) as [e|[[] w1]] eqn:Hs.
    + exists [(c, Some e)]. split; auto. right. exists [], c, [], e. auto.
    + exists [(c, None)]. split; [cbn; rewrite (Hsem _ _ eq_refl); reflexivity|].
      left. auto.
Qed.

Lemma runs_forEach {A} (body : A -> M unit) (calls : A -> list Call) fail :
  failing fail ->
  (forall x w, runs (body x) (calls x) fail w) ->
  forall xs w, runs (forEach xs body) (flat_map calls xs) fail w.
Proof.
  intros Hfail Hbody. induction xs as [|x xs IH]; intros w.
  - apply runs_ret.
  - cbn [forEach flat_map]. apply runs_seq; auto.
Qed.

Lemma runs_handleError m p w :
  runs m p Err w -> runs (handleError m) p fatal w.
Proof.
  intros (new & Hlog & Hplan). unfold runs, handleError.
  destruct (m w) as [[[]|e|x] w1]; cbn in *; exists new; split; auto.
  - destruct Hplan as [H|(pre & c & post & e0 & _ & H & _)]; [left; auto|discriminate].
  - destruct Hplan as [(H & _)|(pre & c & post & e0 & -> & H & ->)]; [discriminate|].
    inversion H; subst. right. exists pre, c, post, e0. auto.
  - destruct Hplan as [(H & _)|(pre & c & post & e0 & _ & H & _)]; discriminate.
Qed.

(** A program that goes on as [m2] after one successful command. *)
Lemma runs_after (m m2 : M unit) c p fail w w1 :
  m w = m2 w1 ->
  log w1 = log w ++ [(c, None)] ->
  runs m2 p fail w1 ->
  runs m (c :: p) fail w.
Proof.
  intros Heq Hlog (new & Hlog2 & Hplan). unfold runs. rewrite Heq.
  exists ((c, None) :: new). split.
  - rewrite Hlog2, Hlog, <- app_assoc. reflexivity.
  - destruct Hplan as [(Hr & ->)|(pre & c' & post & e & -> & Hr & ->)].
    + left. auto.
    + right. exists (c :: pre), c', post, e. auto.
Qed.

Lemma flat_map_skip {A B} (skip : A -> bool) (f : A -> B) xs :
  flat_map (fun x => if skip x then [] else [f x]) xs
  = map f (List.filter (fun x => negb (skip x)) xs).
Proof.
  induction xs as [|x xs IH]; cbn; auto.
  destruct (skip x); cbn; rewrite IH; reflexivity.
Qed.

(** ** Relations that every step keeps *)

Section Preserves.

Context (I : World -> World -> Prop) `{!PreOrder I}.

Lemma preserves_ret {A} (a : A) : preserves I (ret a).
Proof. intros w. cbn. reflexivity. Qed.

Lemma preserves_bind {A B} (m : M A) (k : A -> M B) :
  preserves I m -> (forall a, preserves I (k a)) -> preserves I (bind m k).
Proof.
  intros Hm Hk w. unfold bind. specialize (Hm w).
  destruct (m w) as [[a|e|x] w1]; cbn in *; auto.
  etransitivity; [exact Hm|]. apply Hk.
Qed.

Lemma preserves_forEach {A} (body : A -> M unit) xs :
  (forall x, preserves I (body x)) -> preserves I (forEach xs body).
Proof.
  intros Hb. induction xs as [|x xs IH]; cbn [forEach].
  - apply preserves_ret.
  - apply preserves_bind; auto.
Qed.

Lemma preserves_command {A} fault c (sem : World -> error + (A * World)) :
  (forall w o, I w (record c o w)) ->
  (forall w a w1, sem w = inr (a, w1) -> I w (record c None w1)) ->
  preserves I (command fault c sem).
Proof.
  intros Hrec Hsem w. unfold command. destruct (fault w c); cbn; auto.
  destruct (sem w) as [e|[a w1]] eqn:Hs; cbn; eauto.
Qed.

Lemma preserves_ignoreErr m : preserves I m -> preserves I (ignoreErr m).
Proof.
  intros Hm w. specialize (Hm w). unfold ignoreErr.
  destruct (m w) as [[a|e|x] w1]; auto.
Qed.

Lemma preserves_wrapErr {A} (m : M A) wrap : preserves I m -> preserves I (wrapErr m wrap).
Proof.
  intros Hm w. specialize (Hm w). unfold wrapErr.
  destruct (m w) as [[a|e|x] w1]; auto.
Qed.

Lemma preserves_handleError m : preserves I m -> preserves I (handleError m).
Proof.
  intros Hm w. specialize (Hm w). unfold handleError.
  destruct (m w) as [[a|e|x] w1]; auto.
Qed.

End Preserves.

#[local] Instance sameChain_preorder k : PreOrder (sameChain k).
Proof.
  split.
  - intros w. reflexivity.
  - intros w1 w2 w3 H1 H2. unfold sameChain in *. congruence.
Qed.

#[local] Instance sameIpsets_preorder : PreOrder sameIpsets.
Proof.
  split.
  - intros w. reflexivity.
  - intros w1 w2 w3 H1 H2. unfold sameIpsets in *. congruence.
Qed.

#[local] Instance setsShrink_preorder : PreOrder setsShrink.
Proof.
  split.
  - intros w n H. exact H.
  - intros w1 w2 w3 H1 H2 n H. apply H1, H2, H.
Qed.

(** ** The commands, one by one *)

Lemma runs_ClearChain ipt t c w :
  runs (ClearChain ipt t c) [CallClearChain t c] Err w.
Proof.
  apply runs_command. intros a w1 H. inversion H; subst. reflexivity.
Qed.

Lemma runs_IpsFlush ips n w : runs (IpsFlush ips n) [CallIpsFlush n] Err w.
Proof.
  apply runs_command. intros a w1 H.
  destruct (hasSet n (ipsets w)); inversion H; subst. reflexivity.
Qed.

Lemma runs_IpsDestroy ips n w : runs (IpsDestroy ips n) [CallIpsDestroy n] Err w.
Proof.
  apply runs_command. intros a w1 H.
  destruct (hasSet n (ipsets w)); inversion H; subst. reflexivity.
Qed.

(** A command on another chain, or on a set, leaves chain [k] alone. *)
Lemma sameChain_ClearChain ipt t c k :
  k <> (t, c) -> preserves (sameChain k) (ClearChain ipt t c).
Proof.
  intros Hk. apply preserves_command; [intros; reflexivity|].
  intros w a w1 H. inversion H; subst. unfold sameChain. cbn.
  apply lookup_insert_ne. congruence.
Qed.

Lemma sameChain_NewChain ipt t c k :
  k <> (t, c) -> preserves (sameChain k) (NewChain ipt t c).
Proof.
  intros Hk. apply preserves_command; [intros; reflexivity|].
  intros w a w1 H. destruct (chains w !! (t, c)); inversion H; subst.
  unfold sameChain. cbn. apply lookup_insert_ne. congruence.
Qed.

Lemma sameChain_Append ipt t c r k :
  k <> (t, c) -> preserves (sameChain k) (Append ipt t c r).
Proof.
  intros Hk. apply preserves_command; [intros; reflexivity|].
  intros w a w1 H. destruct (chains w !! (t, c)); inversion H; subst.
  unfold sameChain. cbn. apply lookup_insert_ne. congruence.
Qed.

Lemma sameChain_List ipt t c k : preserves (sameChain k) (List ipt t c).
Proof.
  apply preserves_command; [intros; reflexivity|].
  intros w a w1 H. destruct (chains w !! (t, c)); inversion H; subst.
  reflexivity.
Qed.

Lemma sameChain_IpsList ips p k : preserves (sameChain k) (IpsList ips p).
Proof.
  apply preserves_command; [intros; reflexivity|].
  intros w a w1 H. inversion H; subst. reflexivity.
Qed.

Lemma sameChain_IpsFlush ips n k : preserves (sameChain k) (IpsFlush ips n).
Proof.
  apply preserves_command; [intros; reflexivity|].
  intros w a w1 H. destruct (hasSet n (ipsets w)); inversion H; subst. reflexivity.
Qed.

Lemma sameChain_IpsDestroy ips n k : preserves (sameChain k) (IpsDestroy ips n).
Proof.
  apply preserves_command; [intros; reflexivity|].
  intros w a w1 H. destruct (hasSet n (ipsets w)); inversion H; subst. reflexivity.
Qed.


Lemma sameIpsets_ClearChain ipt t c : preserves sameIpsets (ClearChain ipt t c).
Proof.
  apply preserves_command; [intros; reflexivity|].
  intros w a w1 H. inversion H; subst. reflexivity.
Qed.

(** ** The bootstrapper *)

Lemma resetIPTables_runs npc ipt w :
  runs (resetIPTables npc ipt) (clearPlan npc) Err w.
Proof.
  unfold resetIPTables, clearPlan, clearedChains. cbn [map].
  repeat (refine (runs_seq _ _ [_] _ _ _ failing_Err (runs_ClearChain _ _ _ _) _);
          intros ? _).
  apply runs_ret.
Qed.

Lemma resetIPTables_ipsets npc ipt : preserves sameIpsets (resetIPTables npc ipt).
Proof.
  unfold resetIPTables.
  repeat (apply preserves_bind; [apply _|apply sameIpsets_ClearChain|intros _]).
  apply preserves_ret. apply _.
Qed.

Lemma resetIPSets_runs npc ips w :
  runs (resetIPSets npc ips) (ipsetPlan npc w) Err w.
Proof.
  unfold ipsetPlan.
  destruct (ipsFault ips w (CallIpsList npc.(IpsetNamePrefix))) as [e|] eqn:Hf.
  - unfold runs, resetIPSets, bind, IpsList, command. rewrite Hf. cbn.
    exists [(CallIpsList npc.(IpsetNamePrefix), Some e)]. split; auto.
    right. exists [], (CallIpsList npc.(IpsetNamePrefix)). eexists _, e. auto.
  - set (sets := prefixedSets npc w).
    apply (runs_after _
             (forEach sets (fun s => IpsFlush ips s) ;;
              forEach sets (fun s =>
                if String.eqb s npc.(LocalIpset) then ret tt
                else IpsDestroy ips s) ;;
              ret tt)
             _ _ _ _ (record (CallIpsList npc.(IpsetNamePrefix)) None w)).
    + unfold resetIPSets. unfold bind at 1. unfold IpsList, command.
      rewrite Hf. reflexivity.
    + reflexivity.
    + rewrite <- (flat_map_skip (fun s => String.eqb s npc.(LocalIpset)) CallIpsDestroy).
      rewrite <- (app_nil_r (flat_map _ sets)).
      replace (map CallIpsFlush sets) with (flat_map (fun s => [CallIpsFlush s]) sets)
        by (induction sets; cbn; congruence).
      apply runs_seq; [apply failing_Err| |intros w1 _].
      * apply runs_forEach; [apply failing_Err|]. intros. apply runs_IpsFlush.
      * apply runs_seq; [apply failing_Err| |intros w2 _; apply runs_ret].
        apply runs_forEach; [apply failing_Err|]. intros x w2.
        destruct (String.eqb x npc.(LocalIpset)); [apply runs_ret|apply runs_IpsDestroy].
Qed.

Lemma bootstrap_runs npc ipt ips w :
  runs (bootstrap npc ipt ips) (clearPlan npc ++ ipsetPlan npc w) fatal w.
Proof.
  unfold bootstrap. apply runs_seq; [apply failing_fatal| |intros w1 Hw1].
  - apply runs_handleError, resetIPTables_runs.
  - assert (Hsame : ipsets w1 = ipsets w).
    { pose proof (preserves_handleError sameIpsets _ (resetIPTables_ipsets npc ipt) w) as H.
      rewrite Hw1 in H. exact H. }
    replace (ipsetPlan npc w) with (ipsetPlan npc w1)
      by (unfold ipsetPlan, prefixedSets; rewrite Hsame; reflexivity).
    apply runs_handleError, resetIPSets_runs.
Qed.

(** C7: the bootstrapper clears Ingress, Default, Main, EgressMark,
    EgressCustom and EgressDefault in that order, then lists, flushes and
    destroys the sets; each of the two reset functions issues its
    commands in order up to the first one that fails and returns that
    error, and under [handleError] the error ends the start-up with no
    further command. *)
Theorem C7_reset_stops_at_first_failure npc ipt ips w :
  clearPlan npc
  = [CallClearChain npc.(TableFilter) npc.(IngressChain);
     CallClearChain npc.(TableFilter) npc.(DefaultChain);
     CallClearChain npc.(TableFilter) npc.(MainChain);
     CallClearChain npc.(TableFilter) npc.(EgressMarkChain);
     CallClearChain npc.(TableFilter) npc.(EgressCustomChain);
     CallClearChain npc.(TableFilter) npc.(EgressDefaultChain)] /\
  runs (resetIPTables npc ipt) (clearPlan npc) Err w /\
  runs (resetIPSets npc ips) (ipsetPlan npc w) Err w /\
  runs (bootstrap npc ipt ips) (clearPlan npc ++ ipsetPlan npc w) fatal w.
Proof.
  split; [reflexivity|].
  split; [apply resetIPTables_runs|].
  split; [apply resetIPSets_runs|apply bootstrap_runs].
Qed.

Lemma bootstrap_sameChain npc ipt ips k :
  (forall c, In c (clearedChains npc) -> k <> (npc.(TableFilter), c)) ->
  preserves (sameChain k) (bootstrap npc ipt ips).
Proof.
  intros Hk. unfold bootstrap.
  apply preserves_bind; [apply _| |intros _]; apply preserves_handleError.
  - unfold resetIPTables.
    repeat (apply preserves_bind;
            [apply _|apply sameChain_ClearChain, Hk; cbn; tauto|intros _]).
    apply preserves_ret. apply _.
  - unfold resetIPSets.
    apply preserves_bind; [apply _|apply sameChain_IpsList|intros sets].
    apply preserves_bind; [apply _| |intros _].
    + apply preserves_forEach; [apply _|]. intros x. apply sameChain_IpsFlush.
    + apply preserves_bind; [apply _| |intros _; apply preserves_ret; apply _].
      apply preserves_forEach; [apply _|]. intros x.
      destruct (String.eqb x npc.(LocalIpset));
        [apply preserves_ret; apply _|apply sameChain_IpsDestroy].
Qed.

(** C5: the bootstrapper, whatever its outcome, leaves the rule list of
    the Egress chain as it was, the Egress chain not being one of the
    six chains it clears. *)
Theorem C5_bootstrap_keeps_egress npc ipt ips w :
  ~ In npc.(EgressChain) (clearedChains npc) ->
  chains (snd (bootstrap npc ipt ips w)) !! (npc.(TableFilter), npc.(EgressChain))
  = chains w !! (npc.(TableFilter), npc.(EgressChain)).
Proof.
  intros Hnot. apply (bootstrap_sameChain npc ipt ips).
  intros c Hc Heq. inversion Heq; subst. exact (Hnot Hc).
Qed.

(** C5 on the chains of [weaveNpc], from a world whose Egress chain holds
    two rules. *)
Lemma C5_witness_weave :
  chains (snd (bootstrap weaveNpc plainIpt plainIps
                 (setChain "filter" "WEAVE-NPC-EGRESS" [ruleA; ruleB] emptyWorld)))
    !! (weaveNpc.(TableFilter), weaveNpc.(EgressChain))
  = chains (setChain "filter" "WEAVE-NPC-EGRESS" [ruleA; ruleB] emptyWorld)
      !! (weaveNpc.(TableFilter), weaveNpc.(EgressChain)).
Proof.
  apply (C5_bootstrap_keeps_egress weaveNpc plainIpt plainIps).
  simpl. intros H. decompose [or] H; discriminate || assumption.
Defined.

(** ** The sets after the reset *)

Lemma hasSet_In n s : hasSet n s = true -> In n (map fst s).
Proof.
  unfold hasSet. intros H. apply existsb_exists in H as (e & Hin & He).
  apply String.eqb_eq in He. subst n. apply in_map. exact Hin.
Qed.

Lemma In_hasSet n x s : In (n, x) s -> hasSet n s = true.
Proof.
  unfold hasSet. intros H. apply existsb_exists. exists (n, x). split; auto.
  apply String.eqb_refl.
Qed.

Lemma hasSet_flushed n name s :
  hasSet n (map (fun e : string * (ipsetType * list string) =>
                   if String.eqb (fst e) name
                   then (fst e, (fst (snd e), []))
                   else e) s)
  = hasSet n s.
Proof.
  unfold hasSet. induction s as [|e s IH]; cbn; auto.
  rewrite IH. destruct (String.eqb (fst e) name); reflexivity.
Qed.

Lemma hasSet_destroyed n name s :
  hasSet n (List.filter (fun e : string * (ipsetType * list string) =>
                           negb (String.eqb (fst e) name)) s)
  = hasSet n s && negb (String.eqb n name).
Proof.
  unfold hasSet. induction s as [|e s IH]; cbn; auto.
  destruct (String.eqb (fst e) name) eqn:He; cbn; rewrite IH.
  - destruct (String.eqb (fst e) n) eqn:Hn; cbn; auto.
    apply String.eqb_eq in He, Hn. subst. rewrite String.eqb_refl.
    cbn. rewrite andb_false_r. reflexivity.
  - destruct (String.eqb (fst e) n) eqn:Hn; cbn; auto.
    apply String.eqb_eq in Hn. subst. rewrite He. reflexivity.
Qed.

Lemma setsShrink_IpsList ips p : preserves setsShrink (IpsList ips p).
Proof.
  apply preserves_command; [intros w o n H; exact H|].
  intros w a w1 H. inversion H; subst. intros n Hn. exact Hn.
Qed.

Lemma setsShrink_IpsFlush ips name : preserves setsShrink (IpsFlush ips name).
Proof.
  apply preserves_command; [intros w o n H; exact H|].
  intros w a w1 H. destruct (hasSet name (ipsets w)); inversion H; subst.
  intros n Hn. cbn [record setIpsets ipsets] in Hn.
  rewrite hasSet_flushed in Hn. exact Hn.
Qed.

Lemma setsShrink_IpsDestroy ips name : preserves setsShrink (IpsDestroy ips name).
Proof.
  apply preserves_command; [intros w o n H; exact H|].
  intros w a w1 H. destruct (hasSet name (ipsets w)); inversion H; subst.
  intros n Hn. cbn [record setIpsets ipsets] in Hn.
  rewrite hasSet_destroyed in Hn.
  apply andb_true_iff in Hn as [Hn _]. exact Hn.
Qed.

Lemma IpsDestroy_gone ips name w w' :
  IpsDestroy ips name w = (Ok tt, w') -> hasSet name (ipsets w') = false.
Proof.
  intros H. apply command_ok in H as (w1 & _ & Hsem & ->).
  destruct (hasSet name (ipsets w)); inversion Hsem; subst.
  cbn [record setIpsets ipsets].
  rewrite hasSet_destroyed, String.eqb_refl. apply andb_false_r.
Qed.

#[local] Instance staysFlushed_preorder n : PreOrder (staysFlushed n).
Proof.
  split.
  - intros w H. exact H.
  - intros w1 w2 w3 H1 H2 H. apply H2, H1, H.
Qed.

Lemma staysFlushed_IpsFlush ips name n : preserves (staysFlushed n) (IpsFlush ips name).
Proof.
  apply preserves_command; [intros w o H; exact H|].
  intros w a w1 H. destruct (hasSet name (ipsets w)); inversion H; subst.
  intros Hfl ty ms Hin. cbn [record setIpsets ipsets] in Hin.
  apply in_map_iff in Hin as ([n' [ty' ms']] & He & Hin). cbn in He.
  destruct (String.eqb n' name); inversion He; subst; eauto.
Qed.

Lemma staysFlushed_IpsDestroy ips name n : preserves (staysFlushed n) (IpsDestroy ips name).
Proof.
  apply preserves_command; [intros w o H; exact H|].
  intros w a w1 H. destruct (hasSet name (ipsets w)); inversion H; subst.
  intros Hfl ty ms Hin. cbn [record setIpsets ipsets] in Hin.
  apply filter_In in Hin as [Hin _]. eauto.
Qed.

Lemma IpsFlush_flushed ips name w w' :
  IpsFlush ips name w = (Ok tt, w') -> flushedSet name w'.
Proof.
  intros H. apply command_ok in H as (w1 & _ & Hsem & ->).
  destruct (hasSet name (ipsets w)); inversion Hsem; subst.
  intros ty ms Hin. cbn [record setIpsets ipsets] in Hin.
  apply in_map_iff in Hin as ([n' [ty' ms']] & He & Hin). cbn in He.
  destruct (String.eqb n' name) eqn:Hn; inversion He; subst; auto.
  rewrite String.eqb_refl in Hn. discriminate.
Qed.

Lemma preserves_run {A} I (m : M A) w r w' :
  preserves I m -> m w = (r, w') -> I w w'.
Proof.
  intros Hp Hrun. specialize (Hp w). rewrite Hrun in Hp. exact Hp.
Qed.

Lemma flushLoop_staysFlushed ips n xs :
  preserves (staysFlushed n) (forEach xs (fun s => IpsFlush ips s)).
Proof.
  apply preserves_forEach; [apply _|]. intros x. apply staysFlushed_IpsFlush.
Qed.

Lemma destroyLoop_staysFlushed npc ips n xs :
  preserves (staysFlushed n) (forEach xs (destroyBody npc ips)).
Proof.
  apply preserves_forEach; [apply _|]. intros x. unfold destroyBody.
  destruct (String.eqb x npc.(LocalIpset));
    [apply preserves_ret; apply _|apply staysFlushed_IpsDestroy].
Qed.

Lemma flushLoop_setsShrink ips xs :
  preserves setsShrink (forEach xs (fun s => IpsFlush ips s)).
Proof.
  apply preserves_forEach; [apply _|]. intros x. apply setsShrink_IpsFlush.
Qed.

Lemma destroyLoop_setsShrink npc ips xs :
  preserves setsShrink (forEach xs (destroyBody npc ips)).
Proof.
  apply preserves_forEach; [apply _|]. intros x. unfold destroyBody.
  destruct (String.eqb x npc.(LocalIpset));
    [apply preserves_ret; apply _|apply setsShrink_IpsDestroy].
Qed.

(** A flush loop that succeeds has emptied every set it went through. *)
Lemma flushLoop_flushed ips xs : forall w w',
  forEach xs (fun s => IpsFlush ips s) w = (Ok tt, w') ->
  forall n, In n xs -> flushedSet n w'.
Proof.
  induction xs as [|x xs IH]; intros w w' Hrun n Hin; [destruct Hin|].
  cbn [forEach] in Hrun. apply bind_ok in Hrun as ([] & w1 & H1 & H2).
  destruct Hin as [->|Hin].
  - apply (preserves_run _ _ _ _ _ (flushLoop_staysFlushed ips n xs) H2).
    exact (IpsFlush_flushed _ _ _ _ H1).
  - exact (IH _ _ H2 _ Hin).
Qed.

(** A destroy loop that succeeds has removed every set it went through,
    the local-pods set apart. *)
Lemma destroyLoop_gone npc ips xs : forall w w',
  forEach xs (destroyBody npc ips) w = (Ok tt, w') ->
  forall n, In n xs -> n <> npc.(LocalIpset) -> hasSet n (ipsets w') = false.
Proof.
  induction xs as [|x xs IH]; intros w w' Hrun n Hin Hne; [destruct Hin|].
  cbn [forEach] in Hrun. apply bind_ok in Hrun as ([] & w1 & H1 & H2).
  destruct Hin as [->|Hin].
  - unfold destroyBody in H1. apply String.eqb_neq in Hne. rewrite Hne in H1.
    apply IpsDestroy_gone in H1.
    pose proof (preserves_run _ _ _ _ _ (destroyLoop_setsShrink npc ips xs) H2 n) as Hs.
    destruct (hasSet n (ipsets w')); auto.
    rewrite Hs in H1; auto.
  - exact (IH _ _ H2 _ Hin Hne).
Qed.

Lemma resetIPSets_ok npc ips w w' :
  resetIPSets npc ips w = (Ok tt, w') ->
  exists w1 w2,
    forEach (prefixedSets npc w) (fun s => IpsFlush ips s)
      (record (CallIpsList npc.(IpsetNamePrefix)) None w) = (Ok tt, w1) /\
    forEach (prefixedSets npc w) (destroyBody npc ips) w1 = (Ok tt, w2) /\
    w' = w2.
Proof.
  unfold resetIPSets. intros H.
  apply bind_ok in H as (sets & w0 & Hl & H).
  apply command_ok in Hl as (w0' & _ & Hsem & ->). inversion Hsem; subst.
  apply bind_ok in H as ([] & w1 & Hf & H).
  apply bind_ok in H as ([] & w2 & Hd & H).
  inversion H; subst. eauto.
Qed.

(** C6: after a successful [resetIPSets], no set whose name has the
    reserved prefix exists any more, the local-pods set apart; the
    commands were the listing, then a flush of every prefixed set (the
    local-pods set included), and only then the destroys; a prefixed set
    that is left is empty. *)
Theorem C6_prefixed_sets_destroyed npc ips w w' :
  resetIPSets npc ips w = (Ok tt, w') ->
  (forall n, String.prefix npc.(IpsetNamePrefix) n = true ->
             n <> npc.(LocalIpset) ->
             hasSet n (ipsets w') = false) /\
  log w' = log w
           ++ okEntries
                (CallIpsList npc.(IpsetNamePrefix)
                 :: map CallIpsFlush (prefixedSets npc w)
                 ++ map CallIpsDestroy
                      (List.filter (fun s => negb (String.eqb s npc.(LocalIpset)))
                         (prefixedSets npc w))) /\
  (forall n, String.prefix npc.(IpsetNamePrefix) n = true -> flushedSet n w').
Proof.
  intros Hrun.
  destruct (resetIPSets_ok _ _ _ _ Hrun) as (w1 & w2 & Hf & Hd & ->).
  assert (Hshrink : setsShrink w w2).
  { intros n Hn.
    apply (preserves_run _ _ _ _ _ (destroyLoop_setsShrink npc ips _) Hd) in Hn.
    apply (preserves_run _ _ _ _ _ (flushLoop_setsShrink ips _) Hf) in Hn.
    exact Hn. }
  assert (Hlisted : forall n, String.prefix npc.(IpsetNamePrefix) n = true ->
                              hasSet n (ipsets w2) = true ->
                              In n (prefixedSets npc w)).
  { intros n Hp Hn. apply filter_In. split; auto.
    apply hasSet_In, Hshrink, Hn. }
  split; [|split].
  - intros n Hp Hne. destruct (hasSet n (ipsets w2)) eqn:Hn; auto.
    rewrite <- Hn. exact (destroyLoop_gone _ _ _ _ _ Hd n (Hlisted n Hp Hn) Hne).
  - destruct (resetIPSets_runs npc ips w) as (new & Hlog & Hplan).
    rewrite Hrun in Hlog, Hplan. cbn in Hlog, Hplan. rewrite Hlog.
    destruct Hplan as [(_ & ->)|(pre & c & post & e & _ & He & _)];
      [reflexivity|discriminate].
  - intros n Hp ty ms Hin.
    assert (Hn : hasSet n (ipsets w2) = true) by exact (In_hasSet _ _ _ Hin).
    apply (preserves_run _ _ _ _ _ (destroyLoop_staysFlushed npc ips n _) Hd)
      with (ty := ty); auto.
    exact (flushLoop_flushed _ _ _ _ Hf n (Hlisted n Hp Hn)).
Qed.

(** C6 on [worldSets]: the two [weave-] sets are listed. *)
Lemma C6_witness_worldSets :
  (forall n, String.prefix weaveNpc.(IpsetNamePrefix) n = true ->
             n <> weaveNpc.(LocalIpset) ->
             hasSet n (ipsets (snd (resetIPSets weaveNpc plainIps worldSets))) = false) /\
  log (snd (resetIPSets weaveNpc plainIps worldSets))
  = log worldSets
    ++ okEntries
         (CallIpsList weaveNpc.(IpsetNamePrefix)
          :: map CallIpsFlush (prefixedSets weaveNpc worldSets)
          ++ map CallIpsDestroy
               (List.filter (fun s => negb (String.eqb s weaveNpc.(LocalIpset)))
                  (prefixedSets weaveNpc worldSets))) /\
  (forall n, String.prefix weaveNpc.(IpsetNamePrefix) n = true ->
             flushedSet n (snd (resetIPSets weaveNpc plainIps worldSets))).
Proof.
  apply (C6_prefixed_sets_destroyed weaveNpc plainIps worldSets).
  vm_compute. reflexivity.
Defined.

Example resetIPSets_worldSets :
  resetIPSets weaveNpc plainIps worldSets
  = (Ok tt,
     mkWorld ∅
       [("weave-local-pods", (HashIP, [])); ("docker-hosts", (HashIP, ["172.17.0.1"]))]
       (okEntries [CallIpsList "weave-";
                   CallIpsFlush "weave-local-pods"; CallIpsFlush "weave-k8s-ns";
                   CallIpsDestroy "weave-k8s-ns"])).
Proof. vm_compute. reflexivity. Qed.

(** ** The base rules *)

Lemma Append_ok ipt t c r w w' :
  Append ipt t c r w = (Ok tt, w') ->
  exists cur, chains w !! (t, c) = Some cur /\
    w' = record (CallAppend t c r) None (setChain t c (cur ++ [r]) w).
Proof.
  intros H. apply command_ok in H as (w1 & _ & Hsem & ->).
  destruct (chains w !! (t, c)) as [cur|]; inversion Hsem; subst. eauto.
Qed.

Lemma prefix_refl s : String.prefix s s = true.
Proof.
  induction s as [|a s IH]; cbn; auto.
  destruct (ascii_dec a a); [exact IH|congruence].
Qed.

Lemma containsName_listed name s :
  containsName (List.filter (fun n => String.prefix name n) (map fst s)) name
  = hasSet name s.
Proof.
  unfold hasSet. induction s as [|[n x] s IH]; cbn; auto.
  destruct (String.eqb n name) eqn:Hn.
  - apply String.eqb_eq in Hn. subst n. rewrite prefix_refl. cbn.
    rewrite String.eqb_refl. reflexivity.
  - destruct (String.prefix name n); cbn; [rewrite Hn|]; exact IH.
Qed.

(** The set existence probe answers whether the set exists. *)
Lemma ipsetExist_ok ips name w found w' :
  ipsetExist ips name w = (Ok found, w') ->
  found = hasSet name (ipsets w) /\ w' = record (CallIpsList name) None w.
Proof.
  unfold ipsetExist. intros H. apply bind_ok in H as (sets & w1 & Hl & H).
  apply command_ok in Hl as (w0 & _ & Hsem & ->). inversion Hsem; subst.
  inversion H; subst. split; auto. apply containsName_listed.
Qed.

Lemma IpsCreate_ok ips name typ w w' :
  IpsCreate ips name typ w = (Ok tt, w') ->
  hasSet name (ipsets w) = false /\
  w' = record (CallIpsCreate name typ) None
         (setIpsets (ipsets w ++ [(name, (typ, []))]) w).
Proof.
  intros H. apply command_ok in H as (w1 & _ & Hsem & ->).
  destruct (hasSet name (ipsets w)); inversion Hsem; subst. auto.
Qed.

Lemma hasSet_app n s1 s2 : hasSet n (s1 ++ s2) = hasSet n s1 || hasSet n s2.
Proof. unfold hasSet. apply existsb_app. Qed.

(** What a successful [createBaseRules] has done when it reaches its
    last step. *)
Lemma createBaseRules_ok npc allowMcast ipt ips legacy w w' :
  createBaseRules npc allowMcast ipt ips legacy w = (Ok tt, w') ->
  exists cur w5,
    chains w !! (npc.(TableFilter), npc.(MainChain)) = Some cur /\
    chains w5 !! (npc.(TableFilter), npc.(MainChain))
      = Some (cur ++ mainRuleSpecs npc allowMcast) /\
    (forall k, k <> (npc.(TableFilter), npc.(MainChain)) ->
               chains w5 !! k = chains w !! k) /\
    hasSet npc.(LocalIpset) (ipsets w5) = true /\
    log w5 = log w ++ okEntries
                        (mainPlan npc allowMcast (hasSet npc.(LocalIpset) (ipsets w))) /\
    egressStep npc allowMcast ipt legacy w5 = (Ok tt, w').
Proof.
  unfold createBaseRules. intros H.
  apply bind_ok in H as ([] & w1 & H1 & H).
  apply Append_ok in H1 as (cur & Hcur & ->).
  apply bind_ok in H as ([] & w2 & H2 & H).
  apply bind_ok in H as ([] & w3 & H3 & H).
  apply bind_ok in H as ([] & w4 & H4 & H).
  apply bind_ok in H as (found & w5 & H5 & H).
  apply bind_ok in H as ([] & w6 & H6 & H).
  apply bind_ok in H as ([] & w7 & H7 & H).
  apply bind_ok in H as ([] & w8 & H8 & H).
  inversion H; subst w8. clear H.
  exists cur, w7. split; [exact Hcur|].
  destruct allowMcast;
    [apply Append_ok in H2 as (cur2 & Hcur2 & ->)|inversion H2; subst w2; clear H2].
  all: apply Append_ok in H3 as (cur3 & Hcur3 & ->).
  all: apply Append_ok in H4 as (cur4 & Hcur4 & ->).
  all: apply ipsetExist_ok in H5 as (Hfound & ->).
  all: cbn [record setChain setIpsets chains ipsets log] in *.
  all: destruct (hasSet npc.(LocalIpset) (ipsets w)) eqn:Hhas; subst found;
    cbn [negb] in H6;
    [inversion H6; subst w6; clear H6|apply IpsCreate_ok in H6 as (_ & ->)].
  all: apply Append_ok in H7 as (cur7 & Hcur7 & ->).
  all: cbn [record setChain setIpsets chains ipsets log] in *.
  all: rewrite ?lookup_insert_eq in *.
  all: repeat match goal with
       | H : Some _ = Some _ |- _ => inversion H; subst; clear H
       end.
  all: split; [unfold mainRuleSpecs; rewrite <- !app_assoc; reflexivity|].
  all: split; [intros k Hk; rewrite !lookup_insert_ne by congruence; reflexivity|].
  all: split; [try assumption;
               rewrite hasSet_app; cbn; rewrite String.eqb_refl; apply orb_true_r|].
  all: split; [|exact H8].
  all: unfold mainPlan, okEntries; cbn [app map]; rewrite <- !app_assoc; reflexivity.
Qed.

#[local] Instance logGrowsBy_preorder P : PreOrder (logGrowsBy P).
Proof.
  split.
  - intros w. exists []. rewrite app_nil_r. auto.
  - intros w1 w2 w3 (n1 & H1 & F1) (n2 & H2 & F2). exists (n1 ++ n2). split.
    + rewrite H2, H1, <- app_assoc. reflexivity.
    + apply Forall_app. auto.
Qed.

Lemma logGrowsBy_command {A} (P : Call -> Prop) fault c
    (sem : World -> error + (A * World)) :
  P c ->
  (forall w a w1, sem w = inr (a, w1) -> log w1 = log w) ->
  preserves (logGrowsBy P) (command fault c sem).
Proof.
  intros HP Hsem. apply preserves_command.
  - intros w o. exists [(c, o)]. split; auto.
  - intros w a w1 H. exists [(c, None)]. split; auto.
    cbn. rewrite (Hsem _ _ _ H). reflexivity.
Qed.

Lemma logGrowsBy_NewChain P ipt t c :
  P (CallNewChain t c) -> preserves (logGrowsBy P) (NewChain ipt t c).
Proof. intros HP. apply logGrowsBy_command; [exact HP|keeps_log]. Qed.

Lemma logGrowsBy_Append P ipt t c r :
  P (CallAppend t c r) -> preserves (logGrowsBy P) (Append ipt t c r).
Proof. intros HP. apply logGrowsBy_command; [exact HP|keeps_log]. Qed.

Lemma logGrowsBy_List P ipt t c :
  P (CallList t c) -> preserves (logGrowsBy P) (List ipt t c).
Proof. intros HP. apply logGrowsBy_command; [exact HP|keeps_log]. Qed.



Lemma sameIpsets_NewChain ipt t c : preserves sameIpsets (NewChain ipt t c).
Proof.
  apply preserves_command; [intros; reflexivity|].
  intros w a w1 H. destruct (chains w !! (t, c)); inversion H; subst. reflexivity.
Qed.

Lemma sameIpsets_Append ipt t c r : preserves sameIpsets (Append ipt t c r).
Proof.
  apply preserves_command; [intros; reflexivity|].
  intros w a w1 H. destruct (chains w !! (t, c)); inversion H; subst. reflexivity.
Qed.

Lemma sameIpsets_List ipt t c : preserves sameIpsets (List ipt t c).
Proof.
  apply preserves_command; [intros; reflexivity|].
  intros w a w1 H. destruct (chains w !! (t, c)); inversion H; subst. reflexivity.
Qed.

Section Composite.

Context (I : World -> World -> Prop) `{!PreOrder I}.

Lemma preserves_sliceFrom1 s : preserves I (sliceFrom1 s).
Proof. intros w. unfold sliceFrom1. destruct s; cbn; reflexivity. Qed.

(** The reconciler keeps what its three commands keep. *)
Lemma preserves_addChainWithRules ipt t c rulespecs :
  preserves I (NewChain ipt t c) ->
  preserves I (List ipt t c) ->
  (forall r, preserves I (Append ipt t c r)) ->
  preserves I (addChainWithRules ipt t c rulespecs).
Proof.
  intros Hn Hl Ha. unfold addChainWithRules.
  apply preserves_bind; [apply _|apply preserves_ignoreErr, Hn|intros _].
  apply preserves_bind; [apply _|apply preserves_wrapErr, Hl|intros lines].
  apply preserves_bind; [apply _|apply preserves_sliceFrom1|intros rest].
  cbv zeta. destruct (String.eqb _ _); [apply preserves_ret; apply _|].
  apply preserves_bind; [apply _| |intros _; apply preserves_ret; apply _].
  apply preserves_forEach; [apply _|]. intros r. apply preserves_wrapErr, Ha.
Qed.

Lemma preserves_egressStep npc allowMcast ipt legacy :
  (forall r, preserves I (Append ipt npc.(TableFilter) npc.(EgressMarkChain) r)) ->
  preserves I (NewChain ipt npc.(TableFilter) npc.(EgressChain)) ->
  preserves I (List ipt npc.(TableFilter) npc.(EgressChain)) ->
  (forall r, preserves I (Append ipt npc.(TableFilter) npc.(EgressChain) r)) ->
  preserves I (egressStep npc allowMcast ipt legacy).
Proof.
  intros Hm Hn Hl Ha. unfold egressStep.
  destruct legacy; cbn [negb]; [apply preserves_ret; apply _|].
  apply preserves_bind; [apply _|apply Hm|intros _].
  apply preserves_addChainWithRules; auto.
Qed.


End Composite.

(** A successful reconcile has created the chain if needed and listed
    it; the chain now prints as the desired rules or ends with them. *)
Lemma addChainWithRules_ok ipt t c rulespecs w w' :
  addChainWithRules ipt t c rulespecs w = (Ok tt, w') ->
  exists o cur post,
    log w' = log w ++ (CallNewChain t c, o) :: (CallList t c, None) :: post /\
    chains w' !! (t, c) = Some cur /\
    (currText ipt c cur = reqText rulespecs \/ exists old, cur = old ++ rulespecs).
Proof.
  intros Hrun.
  destruct (newChain_step ipt t c w) as (o & w1 & Hn & Hlog1 & _).
  destruct (addChainWithRules_after_create ipt t c rulespecs w w1 Hn)
    as [(e & _ & Heq)|(cur & Hc & _ & Heq)]; rewrite Heq in Hrun; [discriminate|].
  destruct (String.eqb _ _) eqn:Hcmp.
  - inversion Hrun; subst. exists o, cur, []. cbn.
    rewrite Hlog1, <- app_assoc. repeat split; auto.
    left. apply String.eqb_eq, Hcmp.
  - rewrite seq_ret in Hrun.
    pose proof (appendAll_ok ipt t c rulespecs _ _ cur Hrun Hc) as (Hch & _ & _ & Hlog).
    exists o, (cur ++ rulespecs), (appendEntries t c rulespecs).
    rewrite Hlog. cbn. rewrite Hlog1, <- !app_assoc. repeat split; eauto.
Qed.

(** C4: a successful [createBaseRules] on an empty Main chain leaves in
    it, in order, ACCEPT for established/related, ACCEPT to 224.0.0.0/4
    iff multicast is allowed, the NEW jumps to Default and to Ingress, and
    ACCEPT for destinations outside the local-pods set; the commands were
    those appends with, before the last one, the probe of the local-pods
    set and its creation when the probe did not find it, so the set
    exists.  Outside legacy mode the Main chain must not be one of the two
    chains the egress step writes to. *)
Theorem C4_base_rules_in_main npc allowMcast ipt ips legacy w w' :
  chains w !! (npc.(TableFilter), npc.(MainChain)) = Some [] ->
  createBaseRules npc allowMcast ipt ips legacy w = (Ok tt, w') ->
  legacy = true \/ ~ In npc.(MainChain) [npc.(EgressMarkChain); npc.(EgressChain)] ->
  chains w' !! (npc.(TableFilter), npc.(MainChain))
  = Some ([["-m"; "state"; "--state"; "RELATED,ESTABLISHED"; "-j"; "ACCEPT"]]
          ++ (if allowMcast then [["-d"; "224.0.0.0/4"; "-j"; "ACCEPT"]] else [])
          ++ [["-m"; "state"; "--state"; "NEW"; "-j"; npc.(DefaultChain)];
              ["-m"; "state"; "--state"; "NEW"; "-j"; npc.(IngressChain)];
              ["-m"; "set"; "!"; "--match-set"; npc.(LocalIpset); "dst";
               "-j"; "ACCEPT"]]) /\
  hasSet npc.(LocalIpset) (ipsets w') = true /\
  exists rest,
    log w' = log w
             ++ okEntries (mainPlan npc allowMcast (hasSet npc.(LocalIpset) (ipsets w)))
             ++ rest.
Proof.
  intros Hempty Hrun Hdist.
  destruct (createBaseRules_ok _ _ _ _ _ _ _ Hrun)
    as (cur & w5 & Hcur & Hmain & _ & Hset & Hlog & Hegress).
  rewrite Hempty in Hcur. inversion Hcur; subst cur. cbn [app] in Hmain.
  change (mainRuleSpecs npc allowMcast) with
    ([["-m"; "state"; "--state"; "RELATED,ESTABLISHED"; "-j"; "ACCEPT"]]
     ++ (if allowMcast then [["-d"; "224.0.0.0/4"; "-j"; "ACCEPT"]] else [])
     ++ [["-m"; "state"; "--state"; "NEW"; "-j"; npc.(DefaultChain)];
         ["-m"; "state"; "--state"; "NEW"; "-j"; npc.(IngressChain)];
         ["-m"; "set"; "!"; "--match-set"; npc.(LocalIpset); "dst";
          "-j"; "ACCEPT"]]) in Hmain.
  assert (Hkeep : forall I, PreOrder I ->
            (forall r, preserves I (Append ipt npc.(TableFilter) npc.(EgressMarkChain) r)) ->
            preserves I (NewChain ipt npc.(TableFilter) npc.(EgressChain)) ->
            preserves I (List ipt npc.(TableFilter) npc.(EgressChain)) ->
            (forall r, preserves I (Append ipt npc.(TableFilter) npc.(EgressChain) r)) ->
            I w5 w').
  { intros I HI Hm Hn Hl Ha.
    exact (preserves_run I _ _ _ _
             (preserves_egressStep I npc allowMcast ipt legacy Hm Hn Hl Ha) Hegress). }
  split; [|split].
  - etransitivity; [|exact Hmain]. destruct Hdist as [->|Hdist].
    + inversion Hegress; subst. reflexivity.
    + assert (Hm : npc.(MainChain) <> npc.(EgressMarkChain))
        by (intros E; apply Hdist; left; symmetry; exact E).
      assert (He : npc.(MainChain) <> npc.(EgressChain))
        by (intros E; apply Hdist; right; left; symmetry; exact E).
      apply (Hkeep (sameChain (npc.(TableFilter), npc.(MainChain)))); [apply _|..].
      * intros r. apply sameChain_Append. congruence.
      * apply sameChain_NewChain. congruence.
      * apply sameChain_List.
      * intros r. apply sameChain_Append. congruence.
  - etransitivity; [|exact Hset]. f_equal.
    apply (Hkeep sameIpsets); [apply _|..].
    + intros r. apply sameIpsets_Append.
    + apply sameIpsets_NewChain.
    + apply sameIpsets_List.
    + intros r. apply sameIpsets_Append.
  - destruct (Hkeep (logGrowsBy (fun _ => True))) as (rest & Hrest & _); [apply _|..].
    + intros r. apply logGrowsBy_Append. exact Logic.I.
    + apply logGrowsBy_NewChain. exact Logic.I.
    + apply logGrowsBy_List. exact Logic.I.
    + intros r. apply logGrowsBy_Append. exact Logic.I.
    + exists rest. rewrite Hrest, Hlog, <- app_assoc. reflexivity.
Qed.

(** C4 on the world the bootstrapper leaves, with multicast allowed and
    outside legacy mode. *)
Lemma C4_witness_after_reset :
  chains (snd (createBaseRules weaveNpc true plainIpt plainIps false worldReset))
    !! (weaveNpc.(TableFilter), weaveNpc.(MainChain))
  = Some ([["-m"; "state"; "--state"; "RELATED,ESTABLISHED"; "-j"; "ACCEPT"]]
          ++ (if true then [["-d"; "224.0.0.0/4"; "-j"; "ACCEPT"]] else [])
          ++ [["-m"; "state"; "--state"; "NEW"; "-j"; weaveNpc.(DefaultChain)];
              ["-m"; "state"; "--state"; "NEW"; "-j"; weaveNpc.(IngressChain)];
              ["-m"; "set"; "!"; "--match-set"; weaveNpc.(LocalIpset); "dst";
               "-j"; "ACCEPT"]]) /\
  hasSet weaveNpc.(LocalIpset)
    (ipsets (snd (createBaseRules weaveNpc true plainIpt plainIps false worldReset)))
  = true /\
  exists rest,
    log (snd (createBaseRules weaveNpc true plainIpt plainIps false worldReset))
    = log worldReset
      ++ okEntries (mainPlan weaveNpc true
                      (hasSet weaveNpc.(LocalIpset) (ipsets worldReset)))
      ++ rest.
Proof.
  apply (C4_base_rules_in_main weaveNpc true plainIpt plainIps false worldReset).
  - vm_compute. reflexivity.
  - vm_compute. reflexivity.
  - right. simpl. intros H. decompose [or] H; discriminate || assumption.
Defined.

(** ** Legacy mode *)





(** The same run, computed: the Egress chain was absent, so it now holds
    the seven rules, and the EgressMark chain the mark rule. *)
Example egress_built_after_reset :
  let w' := snd (createBaseRules weaveNpc true plainIpt plainIps false worldReset) in
  chains w' !! ("filter", "WEAVE-NPC-EGRESS") = Some (egressRulesInOrder weaveNpc true) /\
  chains w' !! ("filter", "WEAVE-NPC-EGRESS-ACCEPT")
  = Some [["-j"; "MARK"; "--set-xmark"; "0x40000/0x40000"]].
Proof. vm_compute. split; reflexivity. Qed.

(** ** The delete handlers *)

(** C3: on a tombstone the Namespace and Pod delete handlers call
    [DeleteNamespace] and [DeletePod] once, with the Namespace or Pod the
    tombstone wraps, and the NetworkPolicy delete handler calls
    [DeleteNetworkPolicy] once with the wrapped object. *)
Theorem C3_tombstone_recovery engine key :
  (forall ns,
      fst (DeleteFunc (nsHandlers engine)
             (DeletedFinalStateUnknown key (NamespacePtr ns)))
      = [DeleteNamespace ns]) /\
  (forall pod,
      fst (DeleteFunc (podHandlers engine)
             (DeletedFinalStateUnknown key (PodPtr pod)))
      = [DeletePod pod]) /\
  (forall last,
      fst (DeleteFunc (npHandlers engine) (DeletedFinalStateUnknown key last))
      = [DeleteNetworkPolicy last]).
Proof.
  repeat split; intros; reflexivity.
Qed.

(** C9: a delete payload that is not a tombstone is dropped without any
    engine call by the Namespace handler unless it is a Namespace, and by
    the Pod handler unless it is a Pod; the NetworkPolicy handler forwards
    it as it is to [DeleteNetworkPolicy], whatever its type. *)
Theorem C9_other_delete_payloads engine obj :
  isTombstone obj = false ->
  (isNamespacePtr obj = false -> DeleteFunc (nsHandlers engine) obj = ([], None)) /\
  (isPodPtr obj = false -> DeleteFunc (podHandlers engine) obj = ([], None)) /\
  fst (DeleteFunc (npHandlers engine) obj) = [DeleteNetworkPolicy obj].
Proof.
  intros Ht. destruct obj; try discriminate; repeat split; intros H;
    try discriminate; reflexivity.
Qed.

(** C9 on a payload of another type. *)
Lemma C9_witness_other :
  DeleteFunc (nsHandlers noEngineError) (OtherObj "ConfigMap") = ([], None) /\
  DeleteFunc (podHandlers noEngineError) (OtherObj "ConfigMap") = ([], None) /\
  fst (DeleteFunc (npHandlers noEngineError) (OtherObj "ConfigMap"))
  = [DeleteNetworkPolicy (OtherObj "ConfigMap")].
Proof.
  destruct (C9_other_delete_payloads noEngineError (OtherObj "ConfigMap") eq_refl)
    as (Hns & Hpod & Hnp).
  split; [exact (Hns eq_refl)|]. split; [exact (Hpod eq_refl)|exact Hnp].
Defined.

(** ** Two runs on concrete backends *)

(** With a listing in the format of [iptables -S] the comparison of the
    reconciler sees [-A chain] before every rule, so even on a chain it
    created itself a second call appends the rules again. *)
Example addChainWithRules_twice_dashA :
  chains (snd ((addChainWithRules dashAIpt "filter" "X" [ruleA; ruleC] ;;
                addChainWithRules dashAIpt "filter" "X" [ruleA; ruleC]) emptyWorld))
    !! ("filter", "X")
  = Some [ruleA; ruleC; ruleA; ruleC].
Proof. vm_compute. reflexivity. Qed.

(** From nothing, with multicast allowed and outside legacy mode, the
    start-up leaves the five rules in the Main chain, the seven egress
    rules in the Egress chain and an empty local-pods set. *)
Example startFilterState_from_nothing :
  let run := startFilterState weaveNpc true plainIpt plainIps false emptyWorld in
  fst run = Ok tt /\
  chains (snd run) !! ("filter", "WEAVE-NPC") = Some (mainRuleSpecs weaveNpc true) /\
  chains (snd run) !! ("filter", "WEAVE-NPC-EGRESS") = Some (egressRuleSpecs weaveNpc true) /\
  ipsets (snd run) = [("weave-local-pods", (HashIP, []))].
Proof. vm_compute. repeat split; reflexivity. Qed.

(** The bootstrapper does not clear the Egress chain, so across restarts
    the reconciler meets its own earlier rules: after a start without
    multicast, each start with multicast appends the seven rules again. *)
Example egress_grows_across_restarts :
  let w1 := snd (startFilterState weaveNpc false plainIpt plainIps false emptyWorld) in
  let w2 := snd (startFilterState weaveNpc true plainIpt plainIps false w1) in
  let w3 := snd (startFilterState weaveNpc true plainIpt plainIps false w2) in
  chains w3 !! ("filter", "WEAVE-NPC-EGRESS")
  = Some (egressRuleSpecs weaveNpc false
          ++ egressRuleSpecs weaveNpc true ++ egressRuleSpecs weaveNpc true).
Proof. vm_compute. reflexivity. Qed.

(** * Further properties of the code *)

(** ** The set existence probe *)

(** X1: [ipsetExist] issues the listing and nothing else; when the
    listing fails it returns that error, otherwise it answers true exactly
    when a set of that very name exists, although the listing is by
    prefix; chains and sets are never changed. *)
Theorem X1_ipsetExist_exact ips name w :
  ipsetExist ips name w
  = match ipsFault ips w (CallIpsList name) with
    | Some e => (Err e, record (CallIpsList name) (Some e) w)
    | None => (Ok (hasSet name (ipsets w)), record (CallIpsList name) None w)
    end /\
  (hasSet name (ipsets w) = true <-> In name (map fst (ipsets w))).
Proof.
  split.
  - unfold ipsetExist, bind, IpsList, command.
    destruct (ipsFault ips w (CallIpsList name)); [reflexivity|].
    unfold ret. rewrite containsName_listed. reflexivity.
  - split; [apply hasSet_In|].
    intros H. apply in_map_iff in H as ([n x] & <- & Hin).
    exact (In_hasSet _ _ _ Hin).
Qed.

(** ** More on the bootstrapper *)

Lemma ClearChain_ok ipt t c w w' :
  ClearChain ipt t c w = (Ok tt, w') ->
  w' = record (CallClearChain t c) None (setChain t c [] w).
Proof.
  intros H. apply command_ok in H as (w1 & _ & Hsem & ->).
  inversion Hsem; subst. reflexivity.
Qed.

Lemma resetIPTables_ok npc ipt w w' :
  resetIPTables npc ipt w = (Ok tt, w') ->
  (forall c, In c (clearedChains npc) ->
             chains w' !! (npc.(TableFilter), c) = Some []) /\
  (forall k, (forall c, In c (clearedChains npc) -> k <> (npc.(TableFilter), c)) ->
             chains w' !! k = chains w !! k) /\
  ipsets w' = ipsets w.
Proof.
  unfold resetIPTables. intros H.
  apply bind_ok in H as ([] & w1 & H1 & H). apply ClearChain_ok in H1. subst w1.
  apply bind_ok in H as ([] & w2 & H2 & H). apply ClearChain_ok in H2. subst w2.
  apply bind_ok in H as ([] & w3 & H3 & H). apply ClearChain_ok in H3. subst w3.
  apply bind_ok in H as ([] & w4 & H4 & H). apply ClearChain_ok in H4. subst w4.
  apply bind_ok in H as ([] & w5 & H5 & H). apply ClearChain_ok in H5. subst w5.
  apply bind_ok in H as ([] & w6 & H6 & H). apply ClearChain_ok in H6. subst w6.
  inversion H; subst. clear H.
  cbn [record setChain chains ipsets]. split; [|split; [|reflexivity]].
  - intros c Hc.
    repeat match goal with
           | |- <[(?t, ?a) := _]> _ !! (?t, ?b) = _ =>
               destruct (decide (a = b)) as [->|];
               [apply lookup_insert_eq|rewrite lookup_insert_ne by congruence]
           end.
    cbn in Hc. exfalso. intuition congruence.
  - intros k Hk.
    rewrite !lookup_insert_ne; auto; intros E; symmetry in E; revert E;
      apply Hk; cbn; tauto.
Qed.

(** X2: after a successful [resetIPTables] each of Ingress, Default,
    Main, EgressMark, EgressCustom and EgressDefault exists with no rule,
    every other chain has the rules it had, and no set was touched. *)
Theorem X2_resetIPTables_empties_six npc ipt w w' :
  resetIPTables npc ipt w = (Ok tt, w') ->
  Forall (fun c => chains w' !! (npc.(TableFilter), c) = Some []) (clearedChains npc) /\
  (forall t c, (t = npc.(TableFilter) -> ~ In c (clearedChains npc)) ->
               chains w' !! (t, c) = chains w !! (t, c)) /\
  ipsets w' = ipsets w.
Proof.
  intros H. destruct (resetIPTables_ok _ _ _ _ H) as (H1 & H2 & H3).
  split; [apply List.Forall_forall; exact H1|]. split; [|exact H3].
  intros t c Hc. apply H2. intros c' Hc' E. inversion E; subst.
  exact (Hc eq_refl Hc').
Qed.

(** X2 on a world whose Main chain holds two rules and that has one
    chain of another owner. *)
Lemma X2_witness_two_chains :
  let w := setChain "filter" "WEAVE-NPC" [ruleA; ruleB]
             (setChain "filter" "DOCKER" [ruleC] emptyWorld) in
  Forall (fun c => chains (snd (resetIPTables weaveNpc plainIpt w))
                     !! (weaveNpc.(TableFilter), c) = Some [])
         (clearedChains weaveNpc) /\
  (forall t c, (t = weaveNpc.(TableFilter) -> ~ In c (clearedChains weaveNpc)) ->
               chains (snd (resetIPTables weaveNpc plainIpt w)) !! (t, c)
               = chains w !! (t, c)) /\
  ipsets (snd (resetIPTables weaveNpc plainIpt w)) = ipsets w.
Proof.
  apply (X2_resetIPTables_empties_six weaveNpc plainIpt).
  vm_compute. reflexivity.
Defined.

#[local] Instance sameUnprefixed_preorder npc : PreOrder (sameUnprefixed npc).
Proof.
  split.
  - intros w. reflexivity.
  - intros w1 w2 w3 H1 H2. unfold sameUnprefixed in *. congruence.
Qed.

#[local] Instance sameTyped_preorder n : PreOrder (sameTyped n).
Proof.
  split.
  - intros w ty. reflexivity.
  - intros w1 w2 w3 H1 H2 ty. rewrite (H1 ty). apply H2.
Qed.

Section PreservesMore.

Context (I : World -> World -> Prop) `{!PreOrder I}.

(** As [preserves_bind], with the continuation looked at only after a
    successful first step. *)
Lemma preserves_bind_run {A B} (m : M A) (k : A -> M B) :
  preserves I m ->
  (forall w a w1, m w = (Ok a, w1) -> I w1 (snd (k a w1))) ->
  preserves I (bind m k).
Proof.
  intros Hm Hk w. unfold bind. specialize (Hm w).
  destruct (m w) as [[a|e|x] w1] eqn:Hmw; cbn in *; auto.
  etransitivity; [exact Hm|]. exact (Hk _ _ _ Hmw).
Qed.

Lemma preserves_forEach_In {A} (body : A -> M unit) xs :
  (forall x, In x xs -> preserves I (body x)) -> preserves I (forEach xs body).
Proof.
  induction xs as [|x xs IH]; intros Hb; cbn [forEach].
  - apply preserves_ret. apply _.
  - apply preserves_bind; [apply _|apply Hb; left; reflexivity|intros _].
    apply IH. intros y Hy. apply Hb. right. exact Hy.
Qed.

(** [resetIPSets] keeps what the listing keeps and what a flush and a
    destroy of a listed set other than the local-pods set keep. *)
Lemma preserves_resetIPSets npc ips :
  preserves I (IpsList ips npc.(IpsetNamePrefix)) ->
  (forall s, String.prefix npc.(IpsetNamePrefix) s = true ->
             preserves I (IpsFlush ips s)) ->
  (forall s, String.prefix npc.(IpsetNamePrefix) s = true ->
             s <> npc.(LocalIpset) -> preserves I (IpsDestroy ips s)) ->
  preserves I (resetIPSets npc ips).
Proof.
  intros Hl Hf Hd. unfold resetIPSets.
  apply preserves_bind_run; [exact Hl|]. intros w sets w1 Hrun.
  apply command_ok in Hrun as (w0 & _ & Hsem & ->). inversion Hsem; subst.
  assert (Hpre : forall s, In s (List.filter
                     (fun n => String.prefix npc.(IpsetNamePrefix) n)
                     (map fst (ipsets w0))) ->
                 String.prefix npc.(IpsetNamePrefix) s = true).
  { intros s Hs. apply filter_In in Hs as [_ Hs]. exact Hs. }
  apply preserves_bind; [apply _| |intros _].
  - apply preserves_forEach_In. intros s Hs. apply Hf, Hpre, Hs.
  - apply preserves_bind; [apply _| |intros _; apply preserves_ret; apply _].
    apply preserves_forEach_In. intros s Hs.
    destruct (String.eqb s npc.(LocalIpset)) eqn:E;
      [apply preserves_ret; apply _|].
    apply Hd; [apply Hpre, Hs|]. apply String.eqb_neq, E.
Qed.

End PreservesMore.

Lemma unprefixed_flush p name (s : list (string * (ipsetType * list string))) :
  String.prefix p name = true ->
  List.filter (fun e => negb (String.prefix p (fst e)))
    (map (fun e : string * (ipsetType * list string) =>
            if String.eqb (fst e) name then (fst e, (fst (snd e), [])) else e) s)
  = List.filter (fun e => negb (String.prefix p (fst e))) s.
Proof.
  intros Hp. induction s as [|e s IH]; cbn; auto.
  destruct (String.eqb (fst e) name) eqn:E; cbn; rewrite IH; auto.
  apply String.eqb_eq in E. rewrite E, Hp. reflexivity.
Qed.

Lemma unprefixed_destroy p name (s : list (string * (ipsetType * list string))) :
  String.prefix p name = true ->
  List.filter (fun e => negb (String.prefix p (fst e)))
    (List.filter (fun e : string * (ipsetType * list string) =>
                    negb (String.eqb (fst e) name)) s)
  = List.filter (fun e => negb (String.prefix p (fst e))) s.
Proof.
  intros Hp. induction s as [|e s IH]; cbn; auto.
  destruct (String.eqb (fst e) name) eqn:E; cbn; rewrite IH; auto.
  apply String.eqb_eq in E. rewrite E, Hp. reflexivity.
Qed.

(** X3: whatever its outcome, [resetIPSets] leaves every set whose name
    does not carry the reserved prefix exactly as it was (name, type,
    members and order), and it changes no chain. *)
Theorem X3_resetIPSets_keeps_foreign_sets npc ips w :
  unprefixed npc (snd (resetIPSets npc ips w)) = unprefixed npc w /\
  chains (snd (resetIPSets npc ips w)) = chains w.
Proof.
  split.
  - apply (preserves_resetIPSets (sameUnprefixed npc) npc ips).
    + apply preserves_command; [intros; reflexivity|].
      intros w0 a w1 H. inversion H; subst. reflexivity.
    + intros s Hs. apply preserves_command; [intros; reflexivity|].
      intros w0 a w1 H. destruct (hasSet s (ipsets w0)); inversion H; subst.
      unfold sameUnprefixed, unprefixed. cbn [record setIpsets ipsets].
      apply unprefixed_flush, Hs.
    + intros s Hs _. apply preserves_command; [intros; reflexivity|].
      intros w0 a w1 H. destruct (hasSet s (ipsets w0)); inversion H; subst.
      unfold sameUnprefixed, unprefixed. cbn [record setIpsets ipsets].
      apply unprefixed_destroy, Hs.
  - apply map_eq. intros k.
    apply (preserves_resetIPSets (sameChain k) npc ips).
    + apply sameChain_IpsList.
    + intros s _. apply sameChain_IpsFlush.
    + intros s _ _. apply sameChain_IpsDestroy.
Qed.

Lemma sameTyped_flush n name w :
  sameTyped n w
    (setIpsets (map (fun e : string * (ipsetType * list string) =>
                       if String.eqb (fst e) name
                       then (fst e, (fst (snd e), []))
                       else e) (ipsets w)) w).
Proof.
  intros ty. cbn [setIpsets ipsets]. split; intros (ms & Hin).
  - destruct (String.eqb n name) eqn:E.
    + exists []. apply in_map_iff. exists (n, (ty, ms)). cbn. rewrite E. auto.
    + exists ms. apply in_map_iff. exists (n, (ty, ms)). cbn. rewrite E. auto.
  - apply in_map_iff in Hin as ([n' [ty' ms']] & He & Hin). cbn in He.
    destruct (String.eqb n' name); inversion He; subst; eauto.
Qed.

Lemma sameTyped_destroy n name w :
  n <> name ->
  sameTyped n w
    (setIpsets (List.filter (fun e : string * (ipsetType * list string) =>
                               negb (String.eqb (fst e) name)) (ipsets w)) w).
Proof.
  intros Hne ty. cbn [setIpsets ipsets]. split; intros (ms & Hin); exists ms.
  - apply filter_In. split; auto. cbn. apply negb_true_iff, String.eqb_neq, Hne.
  - apply filter_In in Hin as [Hin _]. exact Hin.
Qed.

(** X4: whatever its outcome, [resetIPSets] keeps the local-pods set: it
    exists afterwards, with the same type, exactly when it existed
    before. *)
Theorem X4_resetIPSets_keeps_local_set npc ips w ty :
  (exists ms, In (npc.(LocalIpset), (ty, ms)) (ipsets w)) <->
  (exists ms, In (npc.(LocalIpset), (ty, ms)) (ipsets (snd (resetIPSets npc ips w)))).
Proof.
  revert ty. apply (preserves_resetIPSets (sameTyped npc.(LocalIpset)) npc ips).
  - apply preserves_command; [intros w0 o ty; reflexivity|].
    intros w0 a w1 H. inversion H; subst. intros ty. reflexivity.
  - intros s _. apply preserves_command; [intros w0 o ty; reflexivity|].
    intros w0 a w1 H. destruct (hasSet s (ipsets w0)); inversion H; subst.
    apply (sameTyped_flush _ s w0).
  - intros s _ Hne. apply preserves_command; [intros w0 o ty; reflexivity|].
    intros w0 a w1 H. destruct (hasSet s (ipsets w0)); inversion H; subst.
    apply (sameTyped_destroy _ s w0). congruence.
Qed.

(** ** More on the chain reconciler *)

(** The create step either leaves the chain as it was or creates it
    empty. *)
Lemma newChain_cases ipt t c w :
  exists o w1,
    ignoreErr (NewChain ipt t c) w = (Ok tt, w1) /\
    log w1 = log w ++ [(CallNewChain t c, o)] /\
    ((chains w1 = chains w /\ o <> None) \/
     (chains w !! (t, c) = None /\ chains w1 = <[(t, c) := []]> (chains w) /\ o = None)).
Proof.
  unfold ignoreErr, NewChain, command.
  destruct (iptFault ipt w (CallNewChain t c)) as [e|] eqn:Hf.
  - exists (Some e), (record (CallNewChain t c) (Some e) w).
    split; [reflexivity|]. split; [reflexivity|].
    left. split; [reflexivity|discriminate].
  - destruct (chains w !! (t, c)) as [rs0|] eqn:Hc.
    + eexists (Some _), (record (CallNewChain t c) (Some _) w).
      split; [reflexivity|]. split; [reflexivity|].
      left. split; [reflexivity|discriminate].
    + exists None, (record (CallNewChain t c) None (setChain t c [] w)).
      split; [reflexivity|]. split; [reflexivity|].
      right. repeat split; reflexivity.
Qed.



(** A failing batch of appends leaves in the chain the rules it had
    appended before the failure. *)
Lemma appendAll_err_chain ipt t c rs : forall w e w' cur,
  appendAll ipt t c rs w = (Err e, w') ->
  chains w !! (t, c) = Some cur ->
  exists pre r post e0,
    rs = pre ++ r :: post /\ e = wrapAppend t c r e0 /\
    chains w' !! (t, c) = Some (cur ++ pre) /\
    (forall k, k <> (t, c) -> chains w' !! k = chains w !! k).
Proof.
  induction rs as [|r rs IH]; intros w e w' cur Hrun Hcur.
  - discriminate.
  - unfold appendAll in Hrun. cbn [forEach] in Hrun. unfold bind in Hrun.
    destruct (wrapErr (Append ipt t c r) (wrapAppend t c r) w)
      as [[[]|e1|x] w1] eqn:H1.
    + apply append_ok in H1 as (cur1 & Hc1 & ->).
      rewrite Hcur in Hc1. inversion Hc1; subst cur1.
      apply (IH _ _ _ (cur ++ [r])) in Hrun
        as (pre & r' & post & e0 & -> & -> & Hch & Hfr);
        [|cbn; apply lookup_insert_eq].
      exists (r :: pre), r', post, e0. repeat split; auto.
      * rewrite Hch, <- app_assoc. reflexivity.
      * intros k Hk. rewrite Hfr by auto. cbn. apply lookup_insert_ne. congruence.
    + inversion Hrun; subst.
      apply append_err in H1 as (e0 & -> & ->).
      exists [], r, rs, e0. rewrite app_nil_r. repeat split; auto.
    + discriminate.
Qed.

(** X6: a reconcile that fails on an existing chain returns the wrapped
    listing error and has changed no chain, or returns the wrapped error
    of the append that failed and leaves in the chain the desired rules
    that precede it: the batch is not rolled back. *)
Theorem X6_reconcile_failure_is_partial ipt t c cur rulespecs w e w' :
  chains w !! (t, c) = Some cur ->
  addChainWithRules ipt t c rulespecs w = (Err e, w') ->
  (exists e0, e = wrapList t c e0 /\ chains w' = chains w) \/
  (exists pre r post e0,
      rulespecs = pre ++ r :: post /\ e = wrapAppend t c r e0 /\
      chains w' !! (t, c) = Some (cur ++ pre)).
Proof.
  intros Hcur Hrun.
  destruct (newChain_cases ipt t c w) as (o & w1 & Hn & Hlog1 & Hcase).
  assert (Hsame : chains w1 = chains w).
  { destruct Hcase as [(H & _)|(H & _)]; [exact H|congruence]. }
  destruct (addChainWithRules_after_create ipt t c rulespecs w w1 Hn)
    as [(e1 & _ & Heq)|(cur1 & Hc & _ & Heq)]; rewrite Heq in Hrun.
  - inversion Hrun; subst. left. exists e1. split; [reflexivity|exact Hsame].
  - rewrite Hsame, Hcur in Hc. inversion Hc; subst cur1.
    destruct (String.eqb _ _); [discriminate|].
    rewrite seq_ret in Hrun.
    assert (Hc1 : chains (record (CallList t c) None w1) !! (t, c) = Some cur)
      by (cbn [record chains]; rewrite Hsame; exact Hcur).
    destruct (appendAll_err_chain ipt t c rulespecs _ _ _ cur Hrun Hc1)
      as (pre & r & post & e0 & Hrs & He & Hch & _).
    right. exists pre, r, post, e0. auto.
Qed.

(** X6 with a backend whose fourth command fails: of [A; C] only [A] is
    appended to [A; B]. *)
Lemma X6_witness_second_append_fails :
  let ipt := mkIPTables (failAt 3 (CmdError "Resource temporarily unavailable."))
                        (fun _ r => String.concat " " r) in
  let run := addChainWithRules ipt "filter" "X" [ruleA; ruleC] worldAB in
  (exists e0, wrapAppend "filter" "X" ruleC
                (CmdError "Resource temporarily unavailable.")
              = wrapList "filter" "X" e0 /\
              chains (snd run) = chains worldAB) \/
  (exists pre r post e0,
      [ruleA; ruleC] = pre ++ r :: post /\
      wrapAppend "filter" "X" ruleC (CmdError "Resource temporarily unavailable.")
      = wrapAppend "filter" "X" r e0 /\
      chains (snd run) !! ("filter", "X") = Some ([ruleA; ruleB] ++ pre)).
Proof.
  apply (X6_reconcile_failure_is_partial
           (mkIPTables (failAt 3 (CmdError "Resource temporarily unavailable."))
                       (fun _ r => String.concat " " r))
           "filter" "X" [ruleA; ruleB] [ruleA; ruleC] worldAB).
  - reflexivity.
  - vm_compute. reflexivity.
Defined.

Example reconcile_second_append_fails :
  let ipt := mkIPTables (failAt 3 (CmdError "Resource temporarily unavailable."))
                        (fun _ r => String.concat " " r) in
  chains (snd (addChainWithRules ipt "filter" "X" [ruleA; ruleC] worldAB))
    !! ("filter", "X") = Some [ruleA; ruleB; ruleA].
Proof. vm_compute. reflexivity. Qed.

(** X7: whatever its outcome, the reconciler changes no other chain and
    no set, and every command it issues is a create, a listing or an
    append on its own chain; in particular it never clears a chain. *)
Theorem X7_reconcile_footprint ipt t c rulespecs w k :
  k <> (t, c) ->
  chains (snd (addChainWithRules ipt t c rulespecs w)) !! k = chains w !! k /\
  ipsets (snd (addChainWithRules ipt t c rulespecs w)) = ipsets w /\
  logGrowsBy (reconcilerCall t c) w (snd (addChainWithRules ipt t c rulespecs w)).
Proof.
  intros Hk. split; [|split].
  - apply (preserves_addChainWithRules (sameChain k)).
    + apply sameChain_NewChain, Hk.
    + apply sameChain_List.
    + intros r. apply sameChain_Append, Hk.
  - apply (preserves_addChainWithRules sameIpsets).
    + apply sameIpsets_NewChain.
    + apply sameIpsets_List.
    + intros r. apply sameIpsets_Append.
  - apply (preserves_addChainWithRules (logGrowsBy (reconcilerCall t c))).
    + apply logGrowsBy_NewChain. reflexivity.
    + apply logGrowsBy_List. reflexivity.
    + intros r. apply logGrowsBy_Append. reflexivity.
Qed.

(** X7 for the chain [Y] next to the reconciled chain [X]. *)
Lemma X7_witness_other_chain :
  chains (snd (addChainWithRules plainIpt "filter" "X" [ruleA; ruleC] worldAB))
    !! ("filter", "Y") = chains worldAB !! ("filter", "Y") /\
  ipsets (snd (addChainWithRules plainIpt "filter" "X" [ruleA; ruleC] worldAB))
  = ipsets worldAB /\
  logGrowsBy (reconcilerCall "filter" "X") worldAB
    (snd (addChainWithRules plainIpt "filter" "X" [ruleA; ruleC] worldAB)).
Proof.
  apply (X7_reconcile_footprint plainIpt "filter" "X" [ruleA; ruleC] worldAB).
  discriminate.
Defined.

(** X8: when the listing of an existing chain equals the desired rules
    as text, the reconciler issues the create and the listing and nothing
    else, and leaves chains and sets as they were, whether the listing
    succeeds or not; the comparison is on the text, so rule lists that
    print alike are taken as equal. *)
Theorem X8_reconcile_equal_text_noop ipt t c cur rulespecs w :
  chains w !! (t, c) = Some cur ->
  currText ipt c cur = reqText rulespecs ->
  chains (snd (addChainWithRules ipt t c rulespecs w)) = chains w /\
  ipsets (snd (addChainWithRules ipt t c rulespecs w)) = ipsets w /\
  (exists o1 o2,
      log (snd (addChainWithRules ipt t c rulespecs w))
      = log w ++ [(CallNewChain t c, o1); (CallList t c, o2)]) /\
  (fst (addChainWithRules ipt t c rulespecs w) = Ok tt \/
   exists e0, fst (addChainWithRules ipt t c rulespecs w) = Err (wrapList t c e0)).
Proof.
  intros Hcur Heq.
  destruct (newChain_cases ipt t c w) as (o & w1 & Hn & Hlog1 & Hcase).
  assert (Hsame : chains w1 = chains w).
  { destruct Hcase as [(H & _)|(H & _)]; [exact H|congruence]. }
  assert (Hip : ipsets w1 = ipsets w).
  { exact (preserves_run sameIpsets _ _ _ _
             (preserves_ignoreErr sameIpsets _ (sameIpsets_NewChain ipt t c)) Hn). }
  destruct (addChainWithRules_after_create ipt t c rulespecs w w1 Hn)
    as [(e & _ & Hrun)|(cur1 & Hc1 & _ & Hrun)]; rewrite Hrun.
  - cbn [fst snd record chains ipsets log]. repeat split; auto.
    + exists o, (Some e). rewrite Hlog1, <- app_assoc. reflexivity.
    + right. exists e. reflexivity.
  - rewrite Hsame, Hcur in Hc1. inversion Hc1; subst cur1.
    apply String.eqb_eq in Heq. rewrite Heq.
    cbn [fst snd record chains ipsets log]. repeat split; auto.
    exists o, None. rewrite Hlog1, <- app_assoc. reflexivity.
Qed.

(** X8 on a chain [A; C] and a desired list of two one-token rules that
    print like [A; C]. *)
Lemma X8_witness_same_text :
  let w := setChain "filter" "X" [ruleA; ruleC] emptyWorld in
  let run := addChainWithRules plainIpt "filter" "X" [["-j A"]; ["-j C"]] w in
  chains (snd run) = chains w /\
  ipsets (snd run) = ipsets w /\
  (exists o1 o2,
      log (snd run)
      = log w ++ [(CallNewChain "filter" "X", o1); (CallList "filter" "X", o2)]) /\
  (fst run = Ok tt \/ exists e0, fst run = Err (wrapList "filter" "X" e0)).
Proof.
  apply (X8_reconcile_equal_text_noop plainIpt "filter" "X" [ruleA; ruleC]).
  - reflexivity.
  - vm_compute. reflexivity.
Defined.

(** ** More on the base rules *)

Lemma runs_Append ipt t c r w : runs (Append ipt t c r) [CallAppend t c r] Err w.
Proof.
  apply runs_command. intros a w1 H.
  destruct (chains w !! (t, c)); inversion H; subst. reflexivity.
Qed.

Lemma runs_IpsCreate ips n ty w : runs (IpsCreate ips n ty) [CallIpsCreate n ty] Err w.
Proof.
  apply runs_command. intros a w1 H.
  destruct (hasSet n (ipsets w)); inversion H; subst. reflexivity.
Qed.

Lemma runs_cons m1 m2 c p fail w :
  failing fail ->
  runs m1 [c] fail w ->
  (forall w1, m1 w = (Ok tt, w1) -> runs m2 p fail w1) ->
  runs (m1 ;; m2) (c :: p) fail w.
Proof. intros Hf H1 H2. exact (runs_seq m1 m2 [c] p fail w Hf H1 H2). Qed.

(** The probe followed by a program that depends on its answer. *)
Lemma runs_ipsetExist ips n (k : bool -> M unit) p w :
  runs (k (hasSet n (ipsets w))) p Err (record (CallIpsList n) None w) ->
  runs (found <- ipsetExist ips n ;; k found) (CallIpsList n :: p) Err w.
Proof.
  intros Hk.
  destruct (ipsFault ips w (CallIpsList n)) as [e|] eqn:Hf.
  - unfold runs, bind, ipsetExist, bind, IpsList, command. rewrite Hf. cbn.
    exists [(CallIpsList n, Some e)]. split; auto.
    right. exists [], (CallIpsList n), p, e. auto.
  - apply (runs_after _ (k (hasSet n (ipsets w))) _ _ _ _
             (record (CallIpsList n) None w)); auto.
    unfold bind, ipsetExist, bind, IpsList, command. rewrite Hf.
    unfold ret. rewrite containsName_listed. reflexivity.
Qed.

Lemma Append_ipsets ipt t c r w w1 :
  Append ipt t c r w = (Ok tt, w1) -> ipsets w1 = ipsets w.
Proof. exact (preserves_run sameIpsets _ _ _ _ (sameIpsets_Append ipt t c r)). Qed.

(** X9: in legacy mode [createBaseRules] issues the appends to the Main
    chain, the probe and, when the probe found no local-pods set, its
    creation, in that order; it stops at the first command that fails
    and returns that error as it is. *)
Theorem X9_createBaseRules_legacy_plan npc allowMcast ipt ips w :
  runs (createBaseRules npc allowMcast ipt ips true)
    (mainPlan npc allowMcast (hasSet npc.(LocalIpset) (ipsets w))) Err w.
Proof.
  unfold createBaseRules, mainPlan.
  apply runs_seq; [apply failing_Err|apply runs_Append|intros w1 H1].
  apply Append_ipsets in H1.
  apply runs_seq; [apply failing_Err| |intros w2 H2].
  { destruct allowMcast; [apply runs_Append|apply runs_ret]. }
  assert (E2 : ipsets w2 = ipsets w).
  { destruct allowMcast; [apply Append_ipsets in H2|inversion H2; subst]; congruence. }
  cbn [app].
  apply runs_cons; [apply failing_Err|apply runs_Append|intros w3 H3].
  apply Append_ipsets in H3.
  apply runs_cons; [apply failing_Err|apply runs_Append|intros w4 H4].
  apply Append_ipsets in H4.
  apply runs_ipsetExist.
  replace (hasSet npc.(LocalIpset) (ipsets w4)) with (hasSet npc.(LocalIpset) (ipsets w))
    by congruence.
  apply runs_seq; [apply failing_Err| |intros w5 _].
  { destruct (hasSet npc.(LocalIpset) (ipsets w)); cbn [negb];
      [apply runs_ret|apply runs_IpsCreate]. }
  apply runs_cons; [apply failing_Err|apply runs_Append|intros w6 _].
  cbn [negb]. change (@nil Call) with (@nil Call ++ []).
  apply runs_seq; [apply failing_Err|apply runs_ret|intros w7 _; apply runs_ret].
Qed.

Lemma handleError_ok m w w' :
  handleError m w = (Ok tt, w') -> m w = (Ok tt, w').
Proof.
  unfold handleError. destruct (m w) as [[[]|e|x] w1]; intros H;
    inversion H; subst; reflexivity.
Qed.

Lemma reqText_egress_nonempty npc allowMcast :
  String.eqb "" (reqText (egressRuleSpecs npc allowMcast)) = false.
Proof.
  unfold reqText, egressRuleSpecs, joinRules. destruct allowMcast; reflexivity.
Qed.

(** On a chain that is absent or empty a successful reconcile with rules
    that do not print as the empty text leaves exactly those rules. *)
Lemma addChainWithRules_from_empty ipt t c rulespecs w w' :
  chains w !! (t, c) = None \/ chains w !! (t, c) = Some [] ->
  String.eqb "" (reqText rulespecs) = false ->
  addChainWithRules ipt t c rulespecs w = (Ok tt, w') ->
  chains w' !! (t, c) = Some rulespecs.
Proof.
  intros Hstart Hreq Hrun.
  destruct (newChain_cases ipt t c w) as (o & w1 & Hn & Hlog1 & Hcase).
  destruct (addChainWithRules_after_create ipt t c rulespecs w w1 Hn)
    as [(e & _ & Heq)|(cur & Hc & _ & Heq)]; rewrite Heq in Hrun; [discriminate|].
  assert (Hcur : cur = []).
  { destruct Hcase as [(Hsame & _)|(_ & Hnew & _)].
    - rewrite Hsame in Hc. destruct Hstart as [H|H]; rewrite H in Hc;
        inversion Hc; reflexivity.
    - rewrite Hnew, lookup_insert_eq in Hc. inversion Hc; reflexivity. }
  subst cur. change (currText ipt c []) with "" in Hrun. rewrite Hreq in Hrun.
  rewrite seq_ret in Hrun.
  exact (proj1 (appendAll_ok ipt t c rulespecs _ _ [] Hrun Hc)).
Qed.

(** X10: outside legacy mode, a successful [createBaseRules] that finds
    the Egress chain absent or empty leaves in it exactly the egress
    rules, in order: six of them, or seven with the RETURN rule for
    224.0.0.0/4 when multicast is allowed. *)
Theorem X10_egress_chain_first_start npc allowMcast ipt ips w w' :
  ~ In npc.(EgressChain) [npc.(MainChain); npc.(EgressMarkChain)] ->
  chains w !! (npc.(TableFilter), npc.(EgressChain)) = None \/
  chains w !! (npc.(TableFilter), npc.(EgressChain)) = Some [] ->
  createBaseRules npc allowMcast ipt ips false w = (Ok tt, w') ->
  chains w' !! (npc.(TableFilter), npc.(EgressChain))
  = Some (egressRuleSpecs npc allowMcast) /\
  length (egressRuleSpecs npc allowMcast) = (if allowMcast then 7 else 6) /\
  (In ["-d"; "224.0.0.0/4"; "-j"; "RETURN"] (egressRuleSpecs npc allowMcast)
   <-> allowMcast = true).
Proof.
  intros Hdist Hstart Hrun. split; [|split].
  - destruct (createBaseRules_ok _ _ _ _ _ _ _ Hrun)
      as (cur0 & w5 & _ & _ & Hfr & _ & _ & Hegress).
    assert (Hm : (npc.(TableFilter), npc.(EgressChain))
                 <> (npc.(TableFilter), npc.(MainChain))).
    { intros E. inversion E as [E1]. apply Hdist. left. symmetry. exact E1. }
    unfold egressStep in Hegress. cbn [negb] in Hegress.
    apply bind_ok in Hegress as ([] & w6 & Hmark & Hadd).
    apply Append_ok in Hmark as (curm & _ & ->).
    apply (addChainWithRules_from_empty _ _ _ _ _ _) in Hadd; auto.
    + cbn [record setChain chains]. rewrite lookup_insert_ne.
      * rewrite (Hfr _ Hm). exact Hstart.
      * intros E. inversion E as [E1]. apply Hdist. right. left. exact E1.
    + apply reqText_egress_nonempty.
  - destruct allowMcast; reflexivity.
  - unfold egressRuleSpecs. destruct allowMcast; cbn; split; intros H; auto.
    + repeat (destruct H as [H|H]; [discriminate|]). destruct H.
    + discriminate.
Qed.

(** X10 on the world the bootstrapper leaves from nothing. *)
Lemma X10_witness_after_reset :
  chains (snd (createBaseRules weaveNpc true plainIpt plainIps false worldReset))
    !! (weaveNpc.(TableFilter), weaveNpc.(EgressChain))
  = Some (egressRuleSpecs weaveNpc true) /\
  length (egressRuleSpecs weaveNpc true) = (if true then 7 else 6) /\
  (In ["-d"; "224.0.0.0/4"; "-j"; "RETURN"] (egressRuleSpecs weaveNpc true)
   <-> true = true).
Proof.
  apply (X10_egress_chain_first_start weaveNpc true plainIpt plainIps worldReset).
  - simpl. intros H. decompose [or] H; discriminate || assumption.
  - left. vm_compute. reflexivity.
  - vm_compute. reflexivity.
Defined.

Lemma resetIPSets_chains npc ips k : preserves (sameChain k) (resetIPSets npc ips).
Proof.
  apply preserves_resetIPSets.
  - apply _.
  - apply sameChain_IpsList.
  - intros s _. apply sameChain_IpsFlush.
  - intros s _ _. apply sameChain_IpsDestroy.
Qed.

Lemma allChains_distinct npc :
  List.NoDup (allChains npc) ->
  npc.(MainChain) <> npc.(EgressMarkChain) /\
  npc.(MainChain) <> npc.(EgressChain) /\
  npc.(EgressMarkChain) <> npc.(EgressChain) /\
  (forall c, In c [npc.(IngressChain); npc.(DefaultChain);
                   npc.(EgressCustomChain); npc.(EgressDefaultChain)] ->
             c <> npc.(MainChain) /\ c <> npc.(EgressMarkChain) /\
             c <> npc.(EgressChain)).
Proof.
  unfold allChains, clearedChains. cbn [app]. intros H.
  repeat match goal with
         | H0 : List.NoDup (_ :: _) |- _ =>
             let Hn := fresh "Hn" in let Hd := fresh "Hd" in
             pose proof (proj1 (List.NoDup_cons_iff _ _) H0) as [Hn Hd]; clear H0
         end.
  cbn [In] in *.
  repeat split; try (intros c Hc; repeat split);
    intros E; intuition congruence.
Qed.

(** X11: a successful start-up converges the chains it clears, whatever
    they held before: the Main chain holds exactly the base rules, the
    EgressMark chain exactly the mark rule (no rule in legacy mode), the
    Ingress, Default, EgressCustom and EgressDefault chains are empty, and
    the local-pods set exists.  The seven chain names are distinct. *)
Theorem X11_startup_converges npc allowMcast ipt ips legacy w w' :
  List.NoDup (allChains npc) ->
  startFilterState npc allowMcast ipt ips legacy w = (Ok tt, w') ->
  chains w' !! (npc.(TableFilter), npc.(MainChain))
  = Some (mainRuleSpecs npc allowMcast) /\
  chains w' !! (npc.(TableFilter), npc.(EgressMarkChain))
  = Some (if legacy then []
          else [["-j"; "MARK"; "--set-xmark"; npc.(EgressMark)]]) /\
  Forall (fun c => chains w' !! (npc.(TableFilter), c) = Some [])
    [npc.(IngressChain); npc.(DefaultChain);
     npc.(EgressCustomChain); npc.(EgressDefaultChain)] /\
  hasSet npc.(LocalIpset) (ipsets w') = true.
Proof.
  intros Hnd Hrun.
  destruct (allChains_distinct npc Hnd) as (Hme & Hmg & Heg & Hothers).
  unfold startFilterState, bootstrap in Hrun.
  apply bind_ok in Hrun as ([] & w2 & Hboot & Hbase).
  apply bind_ok in Hboot as ([] & w1 & Hipt & Hips).
  apply handleError_ok in Hipt, Hips, Hbase.
  destruct (resetIPTables_ok _ _ _ _ Hipt) as (Hsix & _ & _).
  assert (Hsix2 : forall c, In c (clearedChains npc) ->
                            chains w2 !! (npc.(TableFilter), c) = Some []).
  { intros c Hc. rewrite <- (Hsix c Hc).
    exact (preserves_run _ _ _ _ _ (resetIPSets_chains npc ips _) Hips). }
  destruct (createBaseRules_ok _ _ _ _ _ _ _ Hbase)
    as (cur & w5 & Hcur & Hmain & Hfr & Hset & _ & Hegress).
  rewrite Hsix2 in Hcur by (cbn; tauto). inversion Hcur; subst cur.
  cbn [app] in Hmain.
  assert (Hfive : forall c, In c (clearedChains npc) -> c <> npc.(MainChain) ->
                            chains w5 !! (npc.(TableFilter), c) = Some []).
  { intros c Hc Hne. rewrite Hfr by congruence. exact (Hsix2 c Hc). }
  unfold egressStep in Hegress. destruct legacy; cbn [negb] in Hegress.
  - inversion Hegress; subst w'. split; [exact Hmain|].
    split; [apply Hfive; [cbn; tauto|auto]|]. split; [|exact Hset].
    apply List.Forall_forall. intros c Hc. destruct (Hothers c Hc) as (H1 & _).
    apply Hfive; [|exact H1]. cbn in Hc |- *. tauto.
  - apply bind_ok in Hegress as ([] & w6 & Hmark & Hadd).
    apply Append_ok in Hmark as (curm & Hcurm & ->).
    rewrite Hfive in Hcurm by (cbn; auto; tauto). inversion Hcurm; subst curm.
    assert (Hkeep : forall k, k <> (npc.(TableFilter), npc.(EgressChain)) ->
              chains w' !! k
              = chains (record (CallAppend npc.(TableFilter) npc.(EgressMarkChain)
                                  ["-j"; "MARK"; "--set-xmark"; npc.(EgressMark)]) None
                          (setChain npc.(TableFilter) npc.(EgressMarkChain)
                             ([] ++ [["-j"; "MARK"; "--set-xmark"; npc.(EgressMark)]])
                             w5)) !! k).
    { intros k Hk.
      refine (preserves_run (sameChain k) _ _ _ _ _ Hadd).
      apply preserves_addChainWithRules; [apply _|..].
      - apply sameChain_NewChain, Hk.
      - apply sameChain_List.
      - intros r. apply sameChain_Append, Hk. }
    split; [|split; [|split]].
    + rewrite Hkeep by congruence. cbn [record setChain chains].
      rewrite lookup_insert_ne by congruence. exact Hmain.
    + rewrite Hkeep by congruence. cbn [record setChain chains].
      apply lookup_insert_eq.
    + apply List.Forall_forall. intros c Hc. destruct (Hothers c Hc) as (H1 & H2 & H3).
      rewrite Hkeep by congruence. cbn [record setChain chains].
      rewrite lookup_insert_ne by congruence.
      apply Hfive; [|exact H1]. cbn in Hc |- *. tauto.
    + rewrite <- Hset.
      f_equal.
      refine (preserves_run sameIpsets _ _ _ _ _ Hadd).
      apply preserves_addChainWithRules; [apply _|..].
      * apply sameIpsets_NewChain.
      * apply sameIpsets_List.
      * intros r. apply sameIpsets_Append.
Qed.

(** X11 on a world whose Main chain holds stale rules and whose
    EgressMark chain already holds the mark rule. *)
Lemma X11_witness_restart :
  let w := setChain "filter" "WEAVE-NPC" [ruleA; ruleB]
             (setChain "filter" "WEAVE-NPC-EGRESS-ACCEPT"
                [["-j"; "MARK"; "--set-xmark"; "0x40000/0x40000"]] emptyWorld) in
  let w' := snd (startFilterState weaveNpc true plainIpt plainIps false w) in
  chains w' !! (weaveNpc.(TableFilter), weaveNpc.(MainChain))
  = Some (mainRuleSpecs weaveNpc true) /\
  chains w' !! (weaveNpc.(TableFilter), weaveNpc.(EgressMarkChain))
  = Some (if false then []
          else [["-j"; "MARK"; "--set-xmark"; weaveNpc.(EgressMark)]]) /\
  Forall (fun c => chains w' !! (weaveNpc.(TableFilter), c) = Some [])
    [weaveNpc.(IngressChain); weaveNpc.(DefaultChain);
     weaveNpc.(EgressCustomChain); weaveNpc.(EgressDefaultChain)] /\
  hasSet weaveNpc.(LocalIpset) (ipsets w') = true.
Proof.
  intros w w'.
  apply (X11_startup_converges weaveNpc true plainIpt plainIps false w).
  - unfold allChains, clearedChains. simpl.
    repeat (apply List.NoDup_cons;
            [simpl; intros H; decompose [or] H; discriminate || assumption|]).
    apply List.NoDup_nil.
  - vm_compute. reflexivity.
Defined.

(** ** More on the dispatcher *)

(** X12: which payloads end the process by a failed type assertion.  The
    Namespace and Pod handlers panic on an add of another type, on an
    update where either object is of another type, and on a delete
    tombstone that wraps another type; the NetworkPolicy handlers never
    panic; and a handler that panics has made no engine call. *)
Theorem X12_handler_panics engine :
  (forall obj, panicked (AddFunc (nsHandlers engine) obj) <-> isNamespacePtr obj = false) /\
  (forall obj, panicked (AddFunc (podHandlers engine) obj) <-> isPodPtr obj = false) /\
  (forall old new, panicked (UpdateFunc (nsHandlers engine) old new)
                   <-> isNamespacePtr old && isNamespacePtr new = false) /\
  (forall old new, panicked (UpdateFunc (podHandlers engine) old new)
                   <-> isPodPtr old && isPodPtr new = false) /\
  (forall obj, panicked (DeleteFunc (nsHandlers engine) obj)
               <-> exists key last, obj = DeletedFinalStateUnknown key last /\
                                    isNamespacePtr last = false) /\
  (forall obj, panicked (DeleteFunc (podHandlers engine) obj)
               <-> exists key last, obj = DeletedFinalStateUnknown key last /\
                                    isPodPtr last = false) /\
  (forall obj old new,
      ~ panicked (AddFunc (npHandlers engine) obj) /\
      ~ panicked (DeleteFunc (npHandlers engine) obj) /\
      ~ panicked (UpdateFunc (npHandlers engine) old new)) /\
  (forall obj old new,
      Forall (fun handlers : ResourceEventHandlerFuncs =>
                (panicked (AddFunc handlers obj) -> fst (AddFunc handlers obj) = []) /\
                (panicked (DeleteFunc handlers obj) -> fst (DeleteFunc handlers obj) = []) /\
                (panicked (UpdateFunc handlers old new)
                 -> fst (UpdateFunc handlers old new) = []))
        [nsHandlers engine; podHandlers engine; npHandlers engine]).
Proof.
  assert (Hcall : forall c, ~ panicked (handleCall engine c)).
  { intros c (msg & H). unfold handleCall in H. cbn in H.
    destruct (engine c); discriminate. }
  assert (Hpanic : panicked conversionPanic) by (eexists; reflexivity).
  assert (Hskip : ~ panicked ([], None)) by (intros (msg & H); discriminate).
  assert (Hquiet : forall h, h = conversionPanic \/ h = ([], None) \/
                             (exists c, h = handleCall engine c) ->
                             panicked h -> fst h = []).
  { intros h [->|[->|(c & ->)]] H; [reflexivity|reflexivity|].
    exfalso. exact (Hcall c H). }
  split; [|split; [|split; [|split; [|split; [|split; [|split]]]]]].
  - intros obj. split.
    + destruct obj; cbn; auto; intros H; exfalso; exact (Hcall _ H).
    + intros H. destruct obj; cbn; auto; discriminate.
  - intros obj. split.
    + destruct obj; cbn; auto; intros H; exfalso; exact (Hcall _ H).
    + intros H. destruct obj; cbn; auto; discriminate.
  - intros old new. split.
    + destruct old; cbn; auto; destruct new; cbn; auto;
        intros H; exfalso; exact (Hcall _ H).
    + intros H. destruct old; cbn; auto; destruct new; cbn; auto; discriminate.
  - intros old new. split.
    + destruct old; cbn; auto; destruct new; cbn; auto;
        intros H; exfalso; exact (Hcall _ H).
    + intros H. destruct old; cbn; auto; destruct new; cbn; auto; discriminate.
  - intros obj. split.
    + intros H. destruct obj as [| | | | |key last|]; cbn in H;
        try (exfalso; exact (Hcall _ H)); try (exfalso; exact (Hskip H)).
      exists key, last. split; auto.
      destruct last; cbn in *; auto; exfalso; exact (Hcall _ H).
    + intros (key & last & -> & Hl). destruct last; cbn; auto; discriminate.
  - intros obj. split.
    + intros H. destruct obj as [| | | | |key last|]; cbn in H;
        try (exfalso; exact (Hcall _ H)); try (exfalso; exact (Hskip H)).
      exists key, last. split; auto.
      destruct last; cbn in *; auto; exfalso; exact (Hcall _ H).
    + intros (key & last & -> & Hl). destruct last; cbn; auto; discriminate.
  - intros obj old new. split; [apply Hcall|]. split; [|apply Hcall].
    destruct obj; apply Hcall.
  - intros obj old new.
    repeat apply List.Forall_cons; try apply List.Forall_nil;
      repeat split; apply Hquiet.
    + destruct obj; cbn; eauto.
    + destruct obj as [| | | | |key last|]; cbn; eauto. destruct last; cbn; eauto.
    + destruct old; cbn; eauto; destruct new; cbn; eauto.
    + destruct obj; cbn; eauto.
    + destruct obj as [| | | | |key last|]; cbn; eauto. destruct last; cbn; eauto.
    + destruct old; cbn; eauto; destruct new; cbn; eauto.
    + cbn; eauto.
    + destruct obj; cbn; eauto.
    + cbn; eauto.
Qed.

(** X12 on a payload of another type given to the Namespace add handler:
    it panics and has made no call. *)
Lemma X12_witness_foreign_add :
  panicked (AddFunc (nsHandlers noEngineError) (OtherObj "ConfigMap")) /\
  fst (AddFunc (nsHandlers noEngineError) (OtherObj "ConfigMap")) = [].
Proof.
  destruct (X12_handler_panics noEngineError)
    as (Hadd & _ & _ & _ & _ & _ & _ & Hquiet).
  assert (Hp : panicked (AddFunc (nsHandlers noEngineError) (OtherObj "ConfigMap")))
    by (apply Hadd; reflexivity).
  split; [exact Hp|].
  pose proof (Hquiet (OtherObj "ConfigMap") NilObj NilObj) as HF.
  apply List.Forall_cons_iff in HF as [(H & _) _]. exact (H Hp).
Defined.


(** ** The start of the process *)

(** X14: [root] issues no backend command unless the node name is not
    empty and every set-up call succeeded; the node name is the flag, or
    [$HOSTNAME] when the flag is empty; when the start completes, the
    reset and the base rules succeeded and the engine gets that node
    name. *)
Theorem X14_root_start npc allowMcast s ipt ips legacy w :
  (String.eqb (resolveNodeName s) "" = true \/ setupOk s = false ->
   snd (rootStart npc allowMcast s ipt ips legacy w) = w /\
   exists x, fst (rootStart npc allowMcast s ipt ips legacy w) = inl x) /\
  (forall name w',
      rootStart npc allowMcast s ipt ips legacy w = (inr name, w') ->
      name <> "" /\
      name = (if String.eqb (flagNodeName s) "" then envHostname s
              else flagNodeName s) /\
      setupOk s = true /\
      startFilterState npc allowMcast ipt ips legacy w = (Ok tt, w')).
Proof.
  unfold rootStart, setupOk. split.
  - intros [H|H].
    + rewrite H. split; eauto.
    + destruct (String.eqb (resolveNodeName s) ""); [split; eauto|].
      destruct (metricsStart s); [split; eauto|].
      destruct (ulogdStart s); [split; eauto|].
      destruct (inClusterConfig s); [split; eauto|].
      destruct (newForConfig s); [split; eauto|].
      destruct (iptablesNew s); [split; eauto|discriminate].
  - intros name w' H.
    destruct (String.eqb (resolveNodeName s) "") eqn:Hn; [discriminate|].
    destruct (metricsStart s); [discriminate|].
    destruct (ulogdStart s); [discriminate|].
    destruct (inClusterConfig s); [discriminate|].
    destruct (newForConfig s); [discriminate|].
    destruct (iptablesNew s); [discriminate|].
    destruct (startFilterState npc allowMcast ipt ips legacy w)
      as [[[]|e|[msg|e]] w1]; inversion H; subst.
    repeat split; auto. apply String.eqb_neq, Hn.
Qed.

(** X14 on a node with a host name only, and on one without any name. *)
Lemma X14_witness_host :
  (snd (rootStart weaveNpc true (mkSetup "" "" None None None None None)
          plainIpt plainIps false emptyWorld) = emptyWorld /\
   exists x, fst (rootStart weaveNpc true (mkSetup "" "" None None None None None)
                    plainIpt plainIps false emptyWorld) = inl x) /\
  ("node-1" <> "" /\
   "node-1" = (if String.eqb (flagNodeName setupHost) "" then envHostname setupHost
               else flagNodeName setupHost) /\
   setupOk setupHost = true /\
   startFilterState weaveNpc true plainIpt plainIps false emptyWorld
   = (Ok tt, snd (rootStart weaveNpc true setupHost plainIpt plainIps false emptyWorld))).
Proof.
  split.
  - apply (proj1 (X14_root_start weaveNpc true (mkSetup "" "" None None None None None)
                    plainIpt plainIps false emptyWorld)).
    left. reflexivity.
  - apply (proj2 (X14_root_start weaveNpc true setupHost
                    plainIpt plainIps false emptyWorld)).
    vm_compute. reflexivity.
Defined.
